(** * framework/module.cc: configuration walk, trace masks and peg counts

    A shallow embedding of [src/framework/module.cc] (snort3) and the
    properties of its three stateful parts: the trace-mask compiler
    ([TraceMask::set]), the verified begin/set/end protocol with its table
    nesting depth, and the aggregation of peg counts ([Module::sum_stats],
    [Module::reset_stats], [Module::get_global_count]).

    Conventions of the embedding:
    - [uint64_t] counters are [Z] with the wrap-around modulo [2^64] written
      out at every addition; [int] fields are [Z], and a signed overflow is
      an undefined outcome;
    - a C array reached through a pointer is an [option (list _)]: [None] is
      the null pointer, and an access past the last element is undefined;
    - a call returns a [result]: a value, an abort on a failed [assert]
      (debug builds only), or undefined behaviour. *)

From stdpp Require Import base numbers option list strings.

Local Open Scope Z_scope.

(** ** Outcomes of a call *)

Inductive result (A : Type) : Type :=
  | Ok (a : A)
  | Abort
  | Undefined.
Arguments Ok {A} a.
Arguments Abort {A}.
Arguments Undefined {A}.

#[global] Instance result_ret : MRet result := λ A a, Ok a.
#[global] Instance result_bind : MBind result := λ A B f r,
  match r with
  | Ok a => f a
  | Abort => Abort
  | Undefined => Undefined
  end.

(** [assert(c)]: checked in a debug build, compiled away under NDEBUG. *)
Definition assert (debug : bool) (c : bool) : result unit :=
  if c then Ok () else if debug then Abort else Ok ().

(** [for ( int i = start; ...; i++ ) body], run for [n] iterations. *)
Fixpoint for_upto {St : Type} (n : nat) (i : nat)
    (body : nat → St → result St) (s : St) : result St :=
  match n with
  | O => Ok s
  | S n' => s' ← body i s; for_upto n' (S i) body s'
  end.

(** ** Machine integers *)

Definition INT_MAX : Z := 2 ^ 31 - 1.
Definition INT_MIN : Z := - 2 ^ 31.

(** [PegCount] is [uint64_t]. *)
Abbreviation PegCount := Z (only parsing).
Definition PEG_MODULUS : Z := 2 ^ 64.
Definition peg_add (a b : PegCount) : PegCount := (a + b) mod PEG_MODULUS.

(** [Trace] is an unsigned bit mask; [|=] never leaves its width. *)
Abbreviation Trace := Z (only parsing).

(** ** C strings *)

(** [strstr(hay, needle)]: offset of the first occurrence, [None] for the
    null pointer. *)
Fixpoint strstr (hay needle : string) : option nat :=
  if String.prefix needle hay then Some O
  else match hay with
       | EmptyString => None
       | String _ rest => S <$> strstr rest needle
       end.

(** ** Values handed over by the configuration parser *)

(** Modelled from the spec: the class [Value] (framework/value.h) is not part
    of the sources at hand. The spec gives it two observations, "does this
    value's option-name equal X" and "read as unsigned 8-bit integer". *)
Record Value : Type := {
  opt_name : string;
  num : Z
}.

(** Modelled from the spec: [Value::is] (framework/value.h) is missing; it
    answers whether "this value's option-name equal[s]" the given name. *)
Definition Value_is (v : Value) (s : string) : bool :=
  bool_decide (opt_name v = s).

(** Modelled from the spec: [Value::get_uint8] (framework/value.h) is
    missing; it is the "read as unsigned 8-bit integer". *)
Definition get_uint8 (v : Value) : Z := num v mod 2 ^ 8.

(** ** Trace masks *)

Record TraceValue : Type := {
  alias : string;
  mask : Trace
}.

(** [TraceMask] holds the array [values] and its length [m_size]; the list is
    the array and [m_size] is its length. *)
Record TraceMask : Type := {
  values : list TraceValue
}.

Definition m_size (tm : TraceMask) : Z := Z.of_nat (length (values tm)).

Definition default_trace_values : list TraceValue :=
  [ {| alias := "all"; mask := 1 |} ].

Definition s_default_trace_values : TraceMask :=
  {| values := default_trace_values |}.

(** The loop of [TraceMask::set(v, mask)] over the entries that
    are left; [target] is what [mask] points to, [None] for a null pointer. *)
Fixpoint TraceMask_scan (tvs : list TraceValue) (v : Value)
    (target : option Trace) : result (bool * option Trace) :=
  match tvs with
  | [] => Ok (false, target)
  | tv :: rest =>
      if Value_is v (alias tv) then
        let opt_val := get_uint8 v in
        if negb (opt_val =? 0) then
          match target with
          | Some t => Ok (true, Some (Z.lor t (mask tv)))
          | None => Undefined
          end
        else Ok (true, target)
      else TraceMask_scan rest v target
  end.

Definition TraceMask_set (tm : TraceMask) (v : Value)
    (target : option Trace) : result (bool * option Trace) :=
  TraceMask_scan (values tm) v target.

(** Modelled from the spec: the one-argument [TraceMask::set(mask)] is defined inline in
    framework/module.h, which is not part of the sources at hand. The spec
    calls it [apply_all]: it "unconditionally ORs every entry's mask bits
    into the target". *)
Definition TraceMask_set_all (tm : TraceMask)
    (target : option Trace) : result (option Trace) :=
  match values tm, target with
  | [], _ => Ok target
  | _ :: _, None => Undefined
  | tvs, Some t => Ok (Some (foldl (λ acc tv, Z.lor acc (mask tv)) t tvs))
  end.

(** ** Peg descriptors and counters *)

Inductive CountType : Type := END | SUM | NOW | MAX.

#[global] Instance CountType_eq_dec : EqDecision CountType.
Proof. solve_decision. Defined.

(** A null [name] is [None]; a descriptor array ends with an entry whose
    [name] is null. *)
Record PegInfo : Type := {
  type : CountType;
  name : option string;
  help : option string
}.

Definition simple_pegs : list PegInfo :=
  [ {| type := SUM; name := Some "packets"; help := Some "total packets" |};
    {| type := END; name := None; help := None |} ].

(** [while ( pegs[num_counts].name ) ++num_counts;] with [infos] the array
    from index [num_counts] on. Running off the array, or incrementing an
    [int] past [INT_MAX], is undefined. *)
Fixpoint walk_pegs (infos : list PegInfo) (num_counts : Z) : result Z :=
  match infos with
  | [] => Undefined
  | q :: rest =>
      match name q with
      | None => Ok num_counts
      | Some _ =>
          if num_counts <? INT_MAX then walk_pegs rest (num_counts + 1)
          else Undefined
      end
  end.

(** [std::vector<PegCount>::operator[]], and the same accesses through a
    [PegCount*]: out of range is undefined. *)
Definition vector_get (i : nat) (c : list PegCount) : result PegCount :=
  match c !! i with
  | Some x => Ok x
  | None => Undefined
  end.

Definition vector_set (i : nat) (x : PegCount) (c : list PegCount)
    : result (list PegCount) :=
  if decide (i < length c)%nat then Ok (<[i:=x]> c) else Undefined.

(** ** The module *)

(** The fields of [Module] that module.cc reads or writes, and what the
    virtual accessors of the concrete module return: [pegs] is the array
    behind [get_pegs()], [live] the storage behind [get_counts()], [global]
    the answer of [global_stats()]. The field [list] is [is_list] here. The
    [Parameter] tables ([params], [default_params]) play no part in what
    follows and are left out. *)
Record module : Type := {
  m_name : string;
  m_help : option string;
  is_list : bool;
  num_counts : Z;
  counts : list PegCount;
  table_level : Z;
  trace : option Trace;
  trace_mask : option TraceMask;
  pegs : option (list PegInfo);
  live : option (list PegCount);
  global : bool
}.

Definition with_num_counts (n : Z) (m : module) : module :=
  {| m_name := m_name m; m_help := m_help m; is_list := is_list m;
     num_counts := n; counts := counts m; table_level := table_level m;
     trace := trace m; trace_mask := trace_mask m; pegs := pegs m;
     live := live m; global := global m |}.

Definition with_counts (c : list PegCount) (m : module) : module :=
  {| m_name := m_name m; m_help := m_help m; is_list := is_list m;
     num_counts := num_counts m; counts := c; table_level := table_level m;
     trace := trace m; trace_mask := trace_mask m; pegs := pegs m;
     live := live m; global := global m |}.

Definition with_live (p : option (list PegCount)) (m : module) : module :=
  {| m_name := m_name m; m_help := m_help m; is_list := is_list m;
     num_counts := num_counts m; counts := counts m;
     table_level := table_level m; trace := trace m;
     trace_mask := trace_mask m; pegs := pegs m; live := p;
     global := global m |}.

Definition with_table_level (l : Z) (m : module) : module :=
  {| m_name := m_name m; m_help := m_help m; is_list := is_list m;
     num_counts := num_counts m; counts := counts m; table_level := l;
     trace := trace m; trace_mask := trace_mask m; pegs := pegs m;
     live := live m; global := global m |}.

Definition with_trace (t : option Trace) (m : module) : module :=
  {| m_name := m_name m; m_help := m_help m; is_list := is_list m;
     num_counts := num_counts m; counts := counts m;
     table_level := table_level m; trace := t; trace_mask := trace_mask m;
     pegs := pegs m; live := live m; global := global m |}.

(** What a concrete module class fixes by overriding the accessors. *)
Record accessors : Type := {
  get_pegs : option (list PegInfo);
  get_counts : option (list PegCount);
  global_stats : bool
}.

(** [Module::Module(s, h)]: [init] sets [list] and [num_counts]; the vector
    [counts] starts empty. Modelled from the spec: the in-class initialisers
    of [table_level], [trace] and [trace_mask] are in framework/module.h,
    which is not part of the sources at hand; the spec has the depth "start
    from zero" and the trace mask and target "optional". *)
Definition Module_new (s : string) (h : option string) (a : accessors)
    : module :=
  {| m_name := s; m_help := h; is_list := false; num_counts := -1;
     counts := []; table_level := 0; trace := None; trace_mask := None;
     pegs := get_pegs a; live := get_counts a; global := global_stats a |}.

(** The constructor with parameters, list flag and trace. Of
    [module_trace_param] only its being null or not matters. *)
Definition Module_new_trace (s : string) (h : option string)
    (list_flag : bool) (t : option Trace) (module_trace_param : bool)
    (module_trace_mask : option TraceMask) (a : accessors) : module :=
  let m := Module_new s h a in
  {| m_name := m_name m; m_help := m_help m; is_list := list_flag;
     num_counts := num_counts m; counts := counts m;
     table_level := table_level m; trace := t;
     trace_mask :=
       match t with
       | Some _ =>
           if module_trace_param then module_trace_mask
           else Some s_default_trace_values
       | None => trace_mask m
       end;
     pegs := pegs m; live := live m; global := global m |}.

(** [Module::set]: the default value-set hook. *)
Definition Module_set (m : module) (fqn : string) (v : Value)
    : result (bool * module) :=
  match strstr fqn ".trace." with
  | Some _ =>
      match trace_mask m with
      | None => Ok (false, m)
      | Some tm =>
          '(r, t) ← TraceMask_set tm v (trace m);
          Ok (r, with_trace t m)
      end
  | None => Ok (false, m)
  end.

(** [Module::enable_trace]. *)
Definition enable_trace (m : module) : result module :=
  match trace_mask m with
  | None => Ok m
  | Some tm =>
      t ← TraceMask_set_all tm (trace m);
      Ok (with_trace t m)
  end.

(** ** Peg statistics *)

(** The recorded totals are the vector [counts] that [reset_stats] sizes.
    The three functions that write them are defined inline in
    framework/module.h, which is not part of the sources at hand. *)

(** Modelled from the spec: [set_peg_count] (framework/module.h) is missing.
    For a global module the spec has the aggregation "copy live value to
    recorded total verbatim for every index". *)
Definition set_peg_count (index : nat) (value : PegCount) (m : module)
    : result module :=
  c ← vector_set index value (counts m);
  Ok (with_counts c m).

(** Modelled from the spec: [add_peg_count] (framework/module.h) is missing.
    For a SUM counter the spec has "the accumulated total is increased by
    the current live value"; [PegCount] is "a 64-bit unsigned counter". *)
Definition add_peg_count (index : nat) (value : PegCount) (m : module)
    : result module :=
  old ← vector_get index (counts m);
  c ← vector_set index (peg_add old value) (counts m);
  Ok (with_counts c m).

(** Modelled from the spec: [set_max_peg_count] (framework/module.h) is
    missing. For a MAX counter the spec has "the accumulated total is
    replaced with the live value only if the live value is greater". *)
Definition set_max_peg_count (index : nat) (value : PegCount) (m : module)
    : result module :=
  old ← vector_get index (counts m);
  if old <? value then
    c ← vector_set index value (counts m);
    Ok (with_counts c m)
  else Ok m.

(** [for ( int i = 0; i < num_counts; i++ ) counts[i] = 0;] *)
Definition zero_counts (m : module) : result module :=
  for_upto (Z.to_nat (num_counts m)) 0
    (λ i m, c ← vector_set i 0 (counts m); Ok (with_counts c m)) m.

(** The guard of the sizing block of [reset_stats]. *)
Definition resolves_count (m : module) : bool := num_counts m <=? 0.

(** [Module::reset_stats]. [counts.resize(n)] keeps the first [n] elements
    and fills up with zeros. *)
Definition reset_stats (m : module) : result module :=
  if resolves_count m then
    let m := with_num_counts 0 m in
    match pegs m with
    | None => Ok m
    | Some infos =>
        n ← walk_pegs infos (num_counts m);
        let m := with_num_counts n m in
        let m := with_counts (resize (Z.to_nat n) 0 (counts m)) m in
        zero_counts m
    end
  else zero_counts m.

(** [p[i]] and [q[i]] in [sum_stats]. *)
Definition live_at (m : module) (i : nat) : result PegCount :=
  match live m with
  | Some p => vector_get i p
  | None => Undefined
  end.

Definition live_put (i : nat) (x : PegCount) (m : module) : result module :=
  match live m with
  | Some p => p' ← vector_set i x p; Ok (with_live (Some p') m)
  | None => Undefined
  end.

Definition peg_at (m : module) (i : nat) : result PegInfo :=
  match pegs m with
  | Some q =>
      match q !! i with
      | Some info => Ok info
      | None => Undefined
      end
  | None => Undefined
  end.

(** The body of the loop for a global module. *)
Definition sum_global (i : nat) (m : module) : result module :=
  v ← live_at m i;
  set_peg_count i v m.

(** The body of the loop for the other modules: the [switch] on the kind. *)
Definition sum_peg (accumulate_now_stats : bool) (i : nat) (m : module)
    : result module :=
  q ← peg_at m i;
  match type q with
  | END => Ok m
  | SUM =>
      v ← live_at m i;
      m ← add_peg_count i v m;
      live_put i 0 m
  | NOW =>
      if accumulate_now_stats then
        v ← live_at m i;
        add_peg_count i v m
      else Ok m
  | MAX =>
      v ← live_at m i;
      set_max_peg_count i v m
  end.

(** [Module::sum_stats]. *)
Definition sum_stats (debug : bool) (accumulate_now_stats : bool)
    (m : module) : result module :=
  m ← (if num_counts m <? 0 then reset_stats m else Ok m);
  match live m with
  | None => Ok m
  | Some _ =>
      _ ← assert debug (bool_decide (is_Some (pegs m)));
      if global m then
        for_upto (Z.to_nat (num_counts m)) 0 sum_global m
      else
        for_upto (Z.to_nat (num_counts m)) 0 (sum_peg accumulate_now_stats) m
  end.

(** The loop of [get_global_count] with [infos] the array from index [i] on:
    the index of the first entry named [nm], [None] when the loop ends at a
    null name. The index is [unsigned]: a loop that would run past
    [2^32 - 1] entries has no defined result. *)
Fixpoint find_peg (infos : list PegInfo) (nm : string) (i : Z)
    : result (option nat) :=
  match infos with
  | [] => Undefined
  | q :: rest =>
      match name q with
      | None => Ok None
      | Some s =>
          if bool_decide (nm = s) then Ok (Some (Z.to_nat i))
          else if i <? 2 ^ 32 - 1 then find_peg rest nm (i + 1)
          else Undefined
      end
  end.

(** [Module::get_global_count]: [assert(false)] then [return 0] after the
    loop. *)
Definition get_global_count (debug : bool) (m : module) (nm : string)
    : result PegCount :=
  match pegs m with
  | None => Undefined
  | Some infos =>
      found ← find_peg infos nm 0;
      match found with
      | Some i => vector_get i (counts m)
      | None => _ ← assert debug false; Ok 0
      end
  end.

(** ** The verified begin/set/end protocol *)

(** The virtual hooks [begin], [set] and [end] of a concrete module class
    with state [D] of its own. [table_level] is private to [Module]: the
    table hooks get the base part to read and their own state to change.
    The [SnortConfig] argument is handed through untouched and left out. *)
Class Hooks (D : Type) : Type := {
  begin_hook : module → D → string → Z → bool * D;
  set_hook : module → D → string → Value → result (bool * (module * D));
  end_hook : module → D → string → Z → bool * D
}.

(** Modelled from the spec: the default [begin] and [end] are defined inline
    in framework/module.h, which is not part of the sources at hand; a
    module that overrides nothing accepts every table. The default [set] is
    [Module::set] above. *)
#[global] Instance default_hooks : Hooks unit := {
  begin_hook _ d _ _ := (true, d);
  set_hook m d fqn v := '(r, m') ← Module_set m fqn v; Ok (r, (m', d));
  end_hook _ d _ _ := (true, d)
}.

Section Verified.
Context {D : Type} `{Hooks D}.

(** [Module::verified_begin]: [table_level++] on an [int]. *)
Definition verified_begin (m : module) (d : D) (fqn : string) (idx : Z)
    : result (bool * (module * D)) :=
  if table_level m <? INT_MAX then
    let m := with_table_level (table_level m + 1) m in
    let '(r, d) := begin_hook m d fqn idx in
    Ok (r, (m, d))
  else Undefined.

(** [Module::verified_set]. *)
Definition verified_set (m : module) (d : D) (fqn : string) (v : Value)
    : result (bool * (module * D)) :=
  if is_list m && (table_level m <? 2) then Ok (false, (m, d))
  else set_hook m d fqn v.

(** [Module::verified_end]: [table_level--] on an [int]. *)
Definition verified_end (m : module) (d : D) (fqn : string) (idx : Z)
    : result (bool * (module * D)) :=
  if INT_MIN <? table_level m then
    let m := with_table_level (table_level m - 1) m in
    let '(r, d) := end_hook m d fqn idx in
    Ok (r, (m, d))
  else Undefined.
End Verified.

(** ** Sequences of calls *)

(** Table boundaries streamed into a module by the configuration parser. *)
Inductive walk_op : Type :=
  | Enter (fqn : string) (idx : Z)
  | Exit (fqn : string) (idx : Z).

(** The caller goes on whatever the hooks answer. *)
Fixpoint run_walk {D : Type} `{Hooks D} (ops : list walk_op)
    (m : module) (d : D) : result (module * D) :=
  match ops with
  | [] => Ok (m, d)
  | Enter fqn idx :: rest =>
      '(_, (m, d)) ← verified_begin m d fqn idx; run_walk rest m d
  | Exit fqn idx :: rest =>
      '(_, (m, d)) ← verified_end m d fqn idx; run_walk rest m d
  end.

(** Properly nested sequences of table boundaries. *)
Inductive balanced : list walk_op → Prop :=
  | balanced_nil : balanced []
  | balanced_nest f i g j w :
      balanced w → balanced (Enter f i :: w ++ [Exit g j])
  | balanced_app w1 w2 :
      balanced w1 → balanced w2 → balanced (w1 ++ w2).

(** Depth after [ops] when starting at depth [n]; [None] when an [Exit] has
    no [Enter] before it. *)
Fixpoint nesting (n : nat) (ops : list walk_op) : option nat :=
  match ops with
  | [] => Some n
  | Enter _ _ :: rest => nesting (S n) rest
  | Exit _ _ :: rest =>
      match n with
      | O => None
      | S n' => nesting n' rest
      end
  end.

(** What happens to the counters of a module over time: the collector calls
    [reset_stats] and [sum_stats], and the owning thread writes the live
    counters in between. *)
Inductive stats_op : Type :=
  | Reset
  | Sum (accumulate_now_stats : bool)
  | Write (p : list PegCount).

Definition run_op (debug : bool) (op : stats_op) (m : module)
    : result module :=
  match op with
  | Reset => reset_stats m
  | Sum acc => sum_stats debug acc m
  | Write p => Ok (with_live (Some p) m)
  end.

Fixpoint run_stats (debug : bool) (ops : list stats_op) (m : module)
    : result module :=
  match ops with
  | [] => Ok m
  | op :: rest => m ← run_op debug op m; run_stats debug rest m
  end.

(** Whether [op], called on [m], enters the sizing block of [reset_stats]:
    [sum_stats] calls [reset_stats] when [num_counts < 0]. *)
Definition recomputes (op : stats_op) (m : module) : bool :=
  match op with
  | Reset => resolves_count m
  | Sum _ => (num_counts m <? 0) && resolves_count m
  | Write _ => false
  end.

(** ** Vocabulary of the properties *)

(** [sub] occurs somewhere in [s]. *)
Definition contains (s sub : string) : Prop :=
  ∃ pre post, s = pre +:+ sub +:+ post.

(** The entries of a descriptor array before the first null name. *)
Fixpoint entries (infos : list PegInfo) : list PegInfo :=
  match infos with
  | [] => []
  | q :: rest =>
      match name q with
      | None => []
      | Some _ => q :: entries rest
      end
  end.

Definition terminated (infos : list PegInfo) : Prop :=
  ∃ q, q ∈ infos ∧ name q = None.

Definition peg_total (m : module) : nat :=
  match pegs m with
  | Some infos => length (entries infos)
  | None => O
  end.

(** The recorded total and the live value at an index. *)
Definition recorded (m : module) (i : nat) : PegCount :=
  default 0 (counts m !! i).

Definition live_value (m : module) (i : nat) : option PegCount :=
  p ← live m; p !! i.

Definition kind_at (m : module) (i : nat) : option CountType :=
  infos ← pegs m; type <$> entries infos !! i.

(** What one aggregation does to the recorded total and to the live value
    of a counter of kind [k], by the table of kinds in the spec. *)
Definition agg_total (accumulate_now_stats : bool) (k : CountType)
    (total v : PegCount) : PegCount :=
  match k with
  | END => total
  | SUM => peg_add total v
  | NOW => if accumulate_now_stats then peg_add total v else total
  | MAX => Z.max total v
  end.

Definition agg_live (k : CountType) (v : PegCount) : PegCount :=
  match k with
  | SUM => 0
  | _ => v
  end.

(** A module as its class and the calls of module.cc leave it: a terminated
    descriptor array, live storage that covers every descriptor, and totals
    that are either not sized yet or sized to the descriptors. *)
Record wf (m : module) : Prop := {
  wf_pegs : ∀ infos, pegs m = Some infos →
    terminated infos ∧ Z.of_nat (length (entries infos)) ≤ INT_MAX;
  wf_live : ∀ p, live m = Some p →
    is_Some (pegs m) ∧ (peg_total m ≤ length p)%nat;
  wf_counts :
    (num_counts m = -1 ∧ counts m = []) ∨
    (num_counts m = Z.of_nat (peg_total m) ∧
     length (counts m) = peg_total m)
}.

(** The writes of a sequence leave live storage for every descriptor. *)
Definition writes_fit (m : module) (ops : list stats_op) : Prop :=
  ∀ p, Write p ∈ ops → is_Some (pegs m) ∧ (peg_total m ≤ length p)%nat.

Definition sums_only (ops : list stats_op) : Prop :=
  Reset ∉ ops.

(** [Module::set] hands the value to the trace mask of the module and
    answers what the trace mask answers. *)
Definition delegates (m : module) (fqn : string) (v : Value) : Prop :=
  ∃ tm, trace_mask m = Some tm ∧
    Module_set m fqn v =
      ('(r, t) ← TraceMask_set tm v (trace m); Ok (r, with_trace t m)).

(** The module after [reset_stats]: sized to its descriptors, all zero. *)
Definition reset_module (m : module) : module :=
  with_counts (replicate (peg_total m) 0)
    (with_num_counts (Z.of_nat (peg_total m)) m).

(** The module once its totals are sized, as [sum_stats] sees it after its
    first lines. *)
Definition sized (m : module) : module :=
  if num_counts m <? 0 then reset_module m else m.

(** A module with one counter of each kind, its totals sized. *)
Definition kinds_pegs : list PegInfo :=
  [ {| type := SUM; name := Some "packets"; help := Some "total packets" |};
    {| type := NOW; name := Some "sessions"; help := Some "open sessions" |};
    {| type := MAX; name := Some "peak"; help := Some "peak sessions" |};
    {| type := END; name := None; help := None |} ].

Definition kinds_module (totals p : list PegCount) : module :=
  with_counts totals
    (with_num_counts 3
       (Module_new "kinds" None
          {| get_pegs := Some kinds_pegs; get_counts := Some p;
             global_stats := false |})).

(** C7 as the spec has it: after the first [reset_stats] or [sum_stats] on a
    new module, no later call changes [num_counts] or computes it again. *)
Definition resolved_once (debug : bool) (m : module) : Prop :=
  ∀ first, first = Reset ∨ (∃ acc, first = Sum acc) →
    ∃ m1, run_op debug first m = Ok m1 ∧
      ∀ ops, writes_fit m ops →
        ∃ m2, run_stats debug ops m1 = Ok m2 ∧
          num_counts m2 = num_counts m1 ∧
          ∀ op, recomputes op m2 = false.

(** A module whose descriptor array holds the sentinel only. *)
Definition no_pegs_module : module :=
  Module_new "empty" None
    {| get_pegs := Some [ {| type := END; name := None; help := None |} ];
       get_counts := None; global_stats := false |}.

(** A module class whose hooks accept everything and count in their own
    state how often they are called. *)
Definition counting_hooks : Hooks nat := {|
  begin_hook _ d _ _ := (true, S d);
  set_hook m d _ _ := Ok (true, (m, S d));
  end_hook _ d _ _ := (true, S d)
|}.

Definition no_accessors : accessors :=
  {| get_pegs := None; get_counts := None; global_stats := false |}.

(** ** Parameter tables and commands *)

(** The parameter kinds that module.cc names. *)
Inductive ParamType : Type := PT_TABLE | PT_INT | PT_MAX.

(** A [Parameter] as the tables of module.cc initialise it: name, type,
    range, default and help. The range of a table is the array of its
    parameters, that of a scalar a string; a null pointer is [None] or
    [no_range]. *)
Inductive Param : Type :=
  | Build_Param (param_name : option string) (param_type : ParamType)
      (param_range : ParamRange) (param_deflt : option string)
      (param_help : option string)
with ParamRange : Type :=
  | no_range
  | range_string (s : string)
  | range_table (ps : list Param).

Definition param_name (p : Param) : option string :=
  match p with
  | Build_Param n _ _ _ _ => n
  end.

Definition default_trace : list Param :=
  [ Build_Param (Some "all") PT_INT (range_string "0:max32") (Some "0")
      (Some "enabling traces in module");
    Build_Param None PT_MAX no_range None None ].

Definition default_trace_params : list Param :=
  [ Build_Param (Some "trace") PT_TABLE (range_table default_trace) None
      (Some "trace config");
    Build_Param None PT_MAX no_range None None ].

(** The loop of [Command::get_arg_list] with [ps] the array from [p] on;
    [at_start] is [p == params]. Running off the array is undefined. *)
Fixpoint arg_list_loop (ps : list Param) (at_start : bool) (args : string)
    : result string :=
  match ps with
  | [] => Undefined
  | p :: rest =>
      match param_name p with
      | None => Ok args
      | Some n =>
          let args := if at_start then args else args +:+ ", " in
          arg_list_loop rest false (args +:+ n)
      end
  end.

(** [Command::get_arg_list] on the [params] of the command. *)
Definition get_arg_list (params : option (list Param)) : result string :=
  args ← match params with
         | None => Ok "("
         | Some ps => arg_list_loop ps true "("
         end;
  Ok (args +:+ ")").

(** The entries of a parameter array before the first null name, by name. *)
Fixpoint param_names (ps : list Param) : list string :=
  match ps with
  | [] => []
  | p :: rest =>
      match param_name p with
      | None => []
      | Some n => n :: param_names rest
      end
  end.

(** ** Showing statistics *)

(** What [Module::show_stats] hands to the formatter [::show_stats], if it
    calls it: the recorded totals, the descriptors, the count and the
    name. *)
Definition show_stats (m : module)
    : option (list PegCount * option (list PegInfo) * Z * string) :=
  if 0 <? num_counts m then Some (counts m, pegs m, num_counts m, m_name m)
  else None.

(** What [Module::show_interval_stats] hands to the formatter, if it calls
    it: the live counters, the descriptors, the chosen indices and the
    name. *)
Definition show_interval_stats (m : module) (peg_idxs : list Z)
    : option (option (list PegCount) * option (list PegInfo) * list Z *
              string) :=
  if 0 <? num_counts m then Some (live m, pegs m, peg_idxs, m_name m)
  else None.

(** ** More vocabulary *)

(** The first entry of a trace mask that a value names. *)
Definition named_entry (tm : TraceMask) (v : Value) : option TraceValue :=
  find (λ tv, Value_is v (alias tv)) (values tm).

(** The bits that one value switches on. *)
Definition trace_bits (tm : TraceMask) (v : Value) : Trace :=
  match named_entry tm v with
  | Some tv => if get_uint8 v =? 0 then 0 else mask tv
  | None => 0
  end.

(** A run of [TraceMask::set] calls on one target, as the configuration
    parser makes them. *)
Fixpoint TraceMask_set_each (tm : TraceMask) (vs : list Value)
    (target : option Trace) : result (option Trace) :=
  match vs with
  | [] => Ok target
  | v :: rest =>
      '(_, target) ← TraceMask_set tm v target;
      TraceMask_set_each tm rest target
  end.

(** The depth that a sequence of table boundaries adds. *)
Fixpoint depth_change (ops : list walk_op) : Z :=
  match ops with
  | [] => 0
  | Enter _ _ :: rest => 1 + depth_change rest
  | Exit _ _ :: rest => -1 + depth_change rest
  end.

(** Rounds of the collector: the owning thread writes the live counters,
    then [sum_stats] runs. *)
Definition flush_rounds (accumulate_now_stats : bool)
    (ps : list (list PegCount)) : list stats_op :=
  ps ≫= λ p, [Write p; Sum accumulate_now_stats].

Definition live_column (i : nat) (ps : list (list PegCount))
    : list PegCount :=
  (λ p : list PegCount, default 0 (p !! i)) <$> ps.

Definition sum_list (l : list Z) : Z := foldr Z.add 0 l.

Definition max_list (start : Z) (l : list Z) : Z := foldl Z.max start l.

(** * Properties *)

(** ** The result monad and record updates *)

Lemma with_trace_id (m : module) : with_trace (trace m) m = m.
Proof. by destruct m. Qed.

Lemma with_counts_id (m : module) : with_counts (counts m) m = m.
Proof. by destruct m. Qed.

(** ** C strings *)

Lemma prefix_cons (a b : Ascii.ascii) (p s : string) :
  String.prefix (String a p) (String b s) =
    if Ascii.ascii_dec a b then String.prefix p s else false.
Proof. reflexivity. Qed.

Lemma append_cons (a : Ascii.ascii) (p s : string) :
  String a p +:+ s = String a (p +:+ s).
Proof. reflexivity. Qed.

Lemma prefix_append (p s : string) :
  String.prefix p s = true ↔ ∃ post, s = p +:+ post.
Proof.
  revert s. induction p as [|a p IH]; intros s.
  - destruct s; split; eauto.
  - destruct s as [|b s].
    + split; [discriminate | intros [post Hpost]; discriminate].
    + rewrite prefix_cons. setoid_rewrite append_cons.
      destruct (Ascii.ascii_dec a b) as [->|Hne].
      * rewrite IH. split; intros [post Hpost]; exists post.
        -- by rewrite Hpost.
        -- by injection Hpost.
      * split; [discriminate | intros [post Hpost]; congruence].
Qed.

Lemma strstr_unfold (hay needle : string) :
  strstr hay needle =
    if String.prefix needle hay then Some O
    else match hay with
         | EmptyString => None
         | String _ rest => S <$> strstr rest needle
         end.
Proof. by destruct hay. Qed.

Lemma strstr_contains (hay needle : string) :
  is_Some (strstr hay needle) ↔ contains hay needle.
Proof.
  induction hay as [|a hay IH]; rewrite strstr_unfold;
    destruct (String.prefix needle _) eqn:Hp.
  - split; [intros _ | eauto].
    apply prefix_append in Hp as [post Hpost]. by exists "", post.
  - split; [by intros [? ?] |].
    intros (pre & post & Heq). destruct pre as [|b pre]; [|discriminate].
    assert (String.prefix needle "" = true) as Hp'
      by (apply prefix_append; by exists post).
    congruence.
  - split; [intros _ | eauto].
    apply prefix_append in Hp as [post Hpost]. by exists "", post.
  - rewrite fmap_is_Some, IH. split.
    + intros (pre & post & ->). by exists (String a pre), post.
    + intros (pre & post & Heq). destruct pre as [|b pre].
      * assert (String.prefix needle (String a hay) = true) as Hp'
          by (apply prefix_append; by exists post).
        congruence.
      * injection Heq as -> ->. by exists pre, post.
Qed.

Lemma strstr_None (hay needle : string) :
  strstr hay needle = None ↔ ¬ contains hay needle.
Proof. rewrite <- strstr_contains, eq_None_not_Some. done. Qed.

(** ** Trace masks *)

Lemma Value_is_true (v : Value) (s : string) :
  Value_is v s = true ↔ s = opt_name v.
Proof. unfold Value_is. rewrite bool_decide_eq_true. split; congruence. Qed.

Lemma Value_is_false (v : Value) (s : string) :
  Value_is v s = false ↔ s ≠ opt_name v.
Proof. unfold Value_is. rewrite bool_decide_eq_false. split; congruence. Qed.

(** Entries whose alias differs from the option name are passed over. *)
Lemma TraceMask_scan_skip (pre rest : list TraceValue) (v : Value)
    (target : option Trace) :
  (∀ tv, tv ∈ pre → alias tv ≠ opt_name v) →
  TraceMask_scan (pre ++ rest) v target = TraceMask_scan rest v target.
Proof.
  induction pre as [|tv pre IH]; intros Hpre; simpl; [done|].
  assert (Value_is v (alias tv) = false) as ->.
  { apply Value_is_false, Hpre. by left. }
  apply IH. intros tv' Hin. apply Hpre. by right.
Qed.

Lemma lor_keeps_bits (t extra : Z) (n : Z) :
  Z.testbit t n = true → Z.testbit (Z.lor t extra) n = true.
Proof. intros Hbit. by rewrite Z.lor_spec, Hbit. Qed.

(** C4: [TraceMask::set] acts on the first entry whose alias is the option
    name of the value and on no other. Without such an entry it returns
    false and the target is left as it was; with one, it returns true, and
    the target is left as it was when the value reads as zero (as an 8-bit
    unsigned integer) and becomes [previous | entry.mask] otherwise. Every
    bit that was set stays set. *)
Theorem TraceMask_set_first_match (tm : TraceMask) (v : Value) (t : Trace) :
  ((∀ tv, tv ∈ values tm → alias tv ≠ opt_name v) →
     TraceMask_set tm v (Some t) = Ok (false, Some t)) ∧
  (∀ pre tv post,
     values tm = pre ++ tv :: post →
     (∀ tv', tv' ∈ pre → alias tv' ≠ opt_name v) →
     alias tv = opt_name v →
     (get_uint8 v = 0 → TraceMask_set tm v (Some t) = Ok (true, Some t)) ∧
     (get_uint8 v ≠ 0 →
        TraceMask_set tm v (Some t) = Ok (true, Some (Z.lor t (mask tv)))) ∧
     (∀ r t', TraceMask_set tm v (Some t) = Ok (r, Some t') →
        ∀ n, Z.testbit t n = true → Z.testbit t' n = true)).
Proof.
  unfold TraceMask_set. split.
  - intros Hnone.
    rewrite <- (app_nil_r (values tm)), TraceMask_scan_skip; done.
  - intros pre tv post -> Hpre Halias.
    rewrite TraceMask_scan_skip by done. simpl.
    apply Value_is_true in Halias as ->.
    split; [|split].
    + intros ->. done.
    + intros Hnz. apply Z.eqb_neq in Hnz as ->. done.
    + intros r t'. destruct (get_uint8 v =? 0); simpl; intros [= <- <-] n Hn.
      * done.
      * by apply lor_keeps_bits.
Qed.

(** End-to-end scenario 2 of the spec, and a second entry with the same
    alias that is never reached. *)
Lemma TraceMask_set_first_match_witness :
  TraceMask_set s_default_trace_values {| opt_name := "all"; num := 1 |}
    (Some 0) = Ok (true, Some 1) ∧
  TraceMask_set
    {| values := [ {| alias := "a"; mask := 2 |};
                   {| alias := "b"; mask := 4 |};
                   {| alias := "b"; mask := 8 |} ] |}
    {| opt_name := "b"; num := 257 |} (Some 1) = Ok (true, Some 5).
Proof.
  split.
  - destruct (TraceMask_set_first_match s_default_trace_values
                {| opt_name := "all"; num := 1 |} 0) as [_ Hmatch].
    destruct (Hmatch [] {| alias := "all"; mask := 1 |} [] eq_refl)
      as (_ & Hnonzero & _).
    + intros tv' Hin. inversion Hin.
    + reflexivity.
    + apply Hnonzero. vm_compute. discriminate.
  - destruct (TraceMask_set_first_match
                {| values := [ {| alias := "a"; mask := 2 |};
                               {| alias := "b"; mask := 4 |};
                               {| alias := "b"; mask := 8 |} ] |}
                {| opt_name := "b"; num := 257 |} 1) as [_ Hmatch].
    destruct (Hmatch [ {| alias := "a"; mask := 2 |} ]
                {| alias := "b"; mask := 4 |}
                [ {| alias := "b"; mask := 8 |} ] eq_refl)
      as (_ & Hnonzero & _).
    + intros tv' Hin. apply list_elem_of_singleton in Hin as ->.
      simpl. discriminate.
    + reflexivity.
    + apply Hnonzero. vm_compute. discriminate.
Defined.

(** ** The default value-set hook *)

Lemma Module_set_bound (m : module) (fqn : string) (v : Value)
    (tm : TraceMask) :
  contains fqn ".trace." → trace_mask m = Some tm →
  Module_set m fqn v =
    ('(r, t) ← TraceMask_set tm v (trace m); Ok (r, with_trace t m)).
Proof.
  unfold Module_set. intros [k Hk]%strstr_contains ->. by rewrite Hk.
Qed.

Lemma Module_set_unbound (m : module) (fqn : string) (v : Value) :
  trace_mask m = None → Module_set m fqn v = Ok (false, m).
Proof.
  unfold Module_set. intros ->. by destruct (strstr fqn ".trace.").
Qed.

Lemma Module_set_unrecognized (m : module) (fqn : string) (v : Value) :
  ¬ contains fqn ".trace." → Module_set m fqn v = Ok (false, m).
Proof. unfold Module_set. intros ->%strstr_None. done. Qed.

(** C8, as stated, fails on a module without a trace mask: the name below
    contains [.trace.], and [Module::set] answers false without handing the
    value to any trace mask. *)
Lemma Module_set_delegates_counterexample :
  let m := Module_new "m" None no_accessors in
  let v := {| opt_name := "all"; num := 1 |} in
  contains "m.trace.all" ".trace." ∧
  ¬ delegates m "m.trace.all" v ∧
  Module_set m "m.trace.all" v = Ok (false, m).
Proof.
  split; [|split].
  - by exists "m", "all".
  - intros (tm & Hbound & _). discriminate.
  - reflexivity.
Qed.

(** C8, amended: [Module::set] hands the value to the trace mask, against
    the trace target of the module, exactly when the name contains
    [.trace.] somewhere and the module has a trace mask; when the name
    contains [.trace.] and there is no trace mask, and whenever the name
    does not contain [.trace.], it returns false and changes nothing. *)
Theorem Module_set_routes (m : module) (fqn : string) (v : Value) :
  (contains fqn ".trace." →
     ∀ tm, trace_mask m = Some tm →
       Module_set m fqn v =
         ('(r, t) ← TraceMask_set tm v (trace m); Ok (r, with_trace t m))) ∧
  (contains fqn ".trace." → trace_mask m = None →
     Module_set m fqn v = Ok (false, m)) ∧
  (¬ contains fqn ".trace." → Module_set m fqn v = Ok (false, m)).
Proof.
  split; [|split].
  - intros Hin tm Hbound. by apply Module_set_bound.
  - intros _ Hnone. by apply Module_set_unbound.
  - apply Module_set_unrecognized.
Qed.

(** A name with [.trace.] deep inside reaches the trace mask; [.tracer.]
    does not, although the trace mask would accept the value. *)
Lemma Module_set_routes_witness :
  let m := Module_new_trace "m" None false (Some 0) false None no_accessors in
  let v := {| opt_name := "all"; num := 1 |} in
  Module_set m "foo.trace.bar.baz" v = Ok (true, with_trace (Some 1) m) ∧
  Module_set m "m.tracer.all" v = Ok (false, m).
Proof.
  intros m v. split.
  - destruct (Module_set_routes m "foo.trace.bar.baz" v) as (Hbound & _ & _).
    assert (contains "foo.trace.bar.baz" ".trace.") as Hin
      by (by exists "foo", "bar.baz").
    rewrite (Hbound Hin s_default_trace_values eq_refl).
    reflexivity.
  - destruct (Module_set_routes m "m.tracer.all" v) as (_ & _ & Hnot).
    apply Hnot. apply strstr_None. reflexivity.
Defined.

(** C10: on a module without a trace mask the trace operations have no
    effect: [Module::set] returns false for every name that contains
    [.trace.] and leaves the module as it was, and [enable_trace] leaves the
    module, its trace target included, as it was. *)
Theorem no_trace_mask_no_effect (m : module) (fqn : string) (v : Value) :
  trace_mask m = None →
  (contains fqn ".trace." → Module_set m fqn v = Ok (false, m)) ∧
  enable_trace m = Ok m.
Proof.
  intros Hnone. split.
  - intros _. by apply Module_set_unbound.
  - unfold enable_trace. by rewrite Hnone.
Qed.

Lemma no_trace_mask_no_effect_witness :
  let m := Module_new_trace "m" None false (Some 6) true None no_accessors in
  trace_mask m = None ∧
  Module_set m "m.trace.all" {| opt_name := "all"; num := 1 |}
    = Ok (false, m) ∧
  enable_trace m = Ok m ∧ trace m = Some 6.
Proof.
  intros m.
  destruct (no_trace_mask_no_effect m "m.trace.all"
              {| opt_name := "all"; num := 1 |} eq_refl) as [Hset Henable].
  split; [reflexivity|]. split; [|split].
  - apply Hset. by exists "m", "all".
  - exact Henable.
  - reflexivity.
Defined.

(** ** The verified begin/set/end protocol *)

(** C5: on a list-like module below nesting depth 2, [verified_set] returns
    false whatever the name and the value, and the set hook is not called:
    the module and the state of the hooks are as before, whatever the hooks
    are. Otherwise [verified_set] is the set hook. *)
Theorem verified_set_guard {D : Type} `{Hooks D}
    (m : module) (d : D) (fqn : string) (v : Value) :
  (is_list m = true → table_level m < 2 →
     verified_set m d fqn v = Ok (false, (m, d))) ∧
  (is_list m = false ∨ 2 ≤ table_level m →
     verified_set m d fqn v = set_hook m d fqn v).
Proof.
  unfold verified_set. split.
  - intros -> Hlt. apply Z.ltb_lt in Hlt as ->. done.
  - intros [-> | Hge]; [done|].
    apply Z.ltb_ge in Hge as ->. by rewrite andb_false_r.
Qed.

(** End-to-end scenario 3 of the spec, with hooks that would accept the
    value and count the call. *)
Lemma verified_set_guard_witness :
  let m := Module_new_trace "mod" None true None false None no_accessors in
  let v := {| opt_name := "opt"; num := 1 |} in
  let m1 := with_table_level 1 m in
  let m2 := with_table_level 2 m in
  @verified_set nat counting_hooks m1 0%nat "mod.opt" v
    = Ok (false, (m1, 0%nat)) ∧
  @verified_begin nat counting_hooks m1 0%nat "mod" 0
    = Ok (true, (m2, 1%nat)) ∧
  @verified_set nat counting_hooks m2 1%nat "mod.opt" v
    = Ok (true, (m2, 2%nat)).
Proof.
  intros m v m1 m2. split; [|split].
  - apply (@verified_set_guard nat counting_hooks m1 0%nat "mod.opt" v);
      [reflexivity | simpl; lia].
  - reflexivity.
  - destruct (@verified_set_guard nat counting_hooks m2 1%nat "mod.opt" v)
      as [_ Hdeep].
    rewrite Hdeep; [reflexivity | right; simpl; lia].
Defined.

Section Nesting.
Context {D : Type} `{Hooks D}.

Lemma verified_begin_level (m : module) (d : D) (fqn : string) (idx : Z) :
  table_level m < INT_MAX →
  ∃ r d', verified_begin m d fqn idx
            = Ok (r, (with_table_level (table_level m + 1) m, d')).
Proof.
  intros Hlt. unfold verified_begin.
  apply Z.ltb_lt in Hlt as ->.
  destruct (begin_hook _ d fqn idx) as [r d']. eauto.
Qed.

Lemma verified_end_level (m : module) (d : D) (fqn : string) (idx : Z) :
  INT_MIN < table_level m →
  ∃ r d', verified_end m d fqn idx
            = Ok (r, (with_table_level (table_level m - 1) m, d')).
Proof.
  intros Hlt. unfold verified_end.
  apply Z.ltb_lt in Hlt as ->.
  destruct (end_hook _ d fqn idx) as [r d']. eauto.
Qed.

Lemma nesting_app (n : nat) (w1 w2 : list walk_op) :
  nesting n (w1 ++ w2) = nesting n w1 ≫= λ k, nesting k w2.
Proof.
  revert n. induction w1 as [|[f i|f i] w1 IH]; intros n; simpl.
  - done.
  - apply IH.
  - destruct n; [done | apply IH].
Qed.

Lemma balanced_nesting (w : list walk_op) :
  balanced w → ∀ n, nesting n w = Some n.
Proof.
  induction 1 as [|f i g j w _ IH|w1 w2 _ IH1 _ IH2]; intros n.
  - done.
  - simpl. rewrite nesting_app, IH. done.
  - rewrite nesting_app, IH1. simpl. apply IH2.
Qed.

Lemma nesting_take (n r : nat) (ops : list walk_op) (k : nat) :
  nesting n ops = Some r → is_Some (nesting n (take k ops)).
Proof.
  rewrite <- (take_drop k ops) at 1. rewrite nesting_app.
  destruct (nesting n (take k ops)); [eauto | discriminate].
Qed.

(** A run whose exits all have an enter before them moves the depth of
    the module as [nesting] says, as long as the [int] can hold it. *)
Lemma run_walk_nesting (ops : list walk_op) :
  ∀ (n n' : nat) (m : module) (d : D),
    nesting n ops = Some n' →
    INT_MIN ≤ table_level m - Z.of_nat n →
    table_level m + Z.of_nat (length ops) ≤ INT_MAX →
    ∃ m' d', run_walk ops m d = Ok (m', d') ∧
      table_level m' = table_level m - Z.of_nat n + Z.of_nat n'.
Proof.
  induction ops as [|[f i|f i] ops IH]; intros n n' m d Hn Hlo Hhi;
    simpl in Hn, Hhi.
  - injection Hn as <-. exists m, d. split; [done | lia].
  - destruct (verified_begin_level m d f i) as (r & d1 & Hstep); [lia|].
    destruct (IH (S n) n' (with_table_level (table_level m + 1) m) d1)
      as (m' & d' & Hrun & Hlevel); [done | simpl; lia | simpl; lia |].
    exists m', d'. simpl. rewrite Hstep. simpl.
    split; [done | simpl in Hlevel; lia].
  - destruct n as [|n]; [discriminate|].
    destruct (verified_end_level m d f i) as (r & d1 & Hstep); [lia|].
    destruct (IH n n' (with_table_level (table_level m - 1) m) d1)
      as (m' & d' & Hrun & Hlevel); [done | simpl; lia | simpl; lia |].
    exists m', d'. simpl. rewrite Hstep. simpl.
    split; [done | simpl in Hlevel; lia].
Qed.

(** C6: [verified_begin] adds exactly 1 to the nesting depth and
    [verified_end] takes exactly 1 off, as far as the [int] that holds the
    depth goes. So a balanced sequence of table boundaries leaves the
    depth where it was, and no prefix of it takes the depth below where it
    started: from zero the depth is never negative. *)
Theorem nesting_depth_balanced (m : module) (d : D) :
  INT_MIN ≤ table_level m →
  (∀ fqn idx, table_level m < INT_MAX →
     ∃ r m' d', verified_begin m d fqn idx = Ok (r, (m', d')) ∧
       table_level m' = table_level m + 1) ∧
  (∀ fqn idx, INT_MIN < table_level m →
     ∃ r m' d', verified_end m d fqn idx = Ok (r, (m', d')) ∧
       table_level m' = table_level m - 1) ∧
  (∀ ops, balanced ops →
     table_level m + Z.of_nat (length ops) ≤ INT_MAX →
     (∃ m' d', run_walk ops m d = Ok (m', d') ∧
        table_level m' = table_level m) ∧
     (∀ k, ∃ mk dk, run_walk (take k ops) m d = Ok (mk, dk) ∧
        table_level m ≤ table_level mk ∧
        (table_level m = 0 → 0 ≤ table_level mk))).
Proof.
  intros Hlo. split; [|split].
  - intros fqn idx Hlt.
    destruct (verified_begin_level m d fqn idx Hlt) as (r & d' & Hstep).
    by exists r, (with_table_level (table_level m + 1) m), d'.
  - intros fqn idx Hgt.
    destruct (verified_end_level m d fqn idx Hgt) as (r & d' & Hstep).
    by exists r, (with_table_level (table_level m - 1) m), d'.
  - intros ops Hbal Hhi.
    pose proof (balanced_nesting ops Hbal O) as Hnest. split.
    + destruct (run_walk_nesting ops O O m d Hnest)
        as (m' & d' & Hrun & Hlevel); [lia | lia |].
      exists m', d'. split; [done | lia].
    + intros k.
      destruct (nesting_take O O ops k Hnest) as [nk Hnk].
      destruct (run_walk_nesting (take k ops) O nk m d Hnk)
        as (mk & dk & Hrun & Hlevel); [lia | |].
      { rewrite length_take. lia. }
      exists mk, dk. split; [done | lia].
Qed.
End Nesting.

Lemma nesting_depth_balanced_witness :
  let m := Module_new "m" None no_accessors in
  let ops := [Enter "a" 0; Enter "a.b" 1; Exit "a.b" 1; Exit "a" 0] in
  table_level m = 0 ∧
  (∃ m' d', @run_walk nat counting_hooks ops m O = Ok (m', d') ∧
     table_level m' = 0) ∧
  (∃ mk dk, @run_walk nat counting_hooks (take 2 ops) m O = Ok (mk, dk) ∧
     0 ≤ table_level mk).
Proof.
  intros m ops.
  assert (balanced ops) as Hbal.
  { apply (balanced_nest "a" 0 "a" 0 [Enter "a.b" 1; Exit "a.b" 1]).
    apply (balanced_nest "a.b" 1 "a.b" 1 []). constructor. }
  destruct (@nesting_depth_balanced nat counting_hooks m O) as (_ & _ & Hseq).
  { vm_compute. discriminate. }
  destruct (Hseq ops Hbal) as [Hend Hprefix].
  { vm_compute. discriminate. }
  split; [reflexivity|]. split.
  - exact Hend.
  - destruct (Hprefix 2%nat) as (mk & dk & Hrun & _ & Hzero).
    exists mk, dk. split; [exact Hrun | by apply Hzero].
Defined.

(** ** Loops and vectors *)

(** A loop whose body keeps an invariant runs to its end and keeps it. *)
Lemma for_upto_inv {St : Type} (P : nat → St → Prop)
    (body : nat → St → result St) (n : nat) :
  ∀ (i : nat) (s : St),
    P i s →
    (∀ j s, (i ≤ j < i + n)%nat → P j s →
       ∃ s', body j s = Ok s' ∧ P (S j) s') →
    ∃ s', for_upto n i body s = Ok s' ∧ P (i + n)%nat s'.
Proof.
  induction n as [|n IH]; intros i s Hinit Hbody; simpl.
  - exists s. by rewrite Nat.add_0_r.
  - destruct (Hbody i s) as (s1 & -> & Hs1); [lia | done |].
    destruct (IH (S i) s1 Hs1) as (s' & Hrun & Hs').
    { intros j sj Hj. apply Hbody. lia. }
    exists s'. simpl. split; [done|].
    by replace (i + S n)%nat with (S i + n)%nat by lia.
Qed.

Lemma vector_get_Some (i : nat) (c : list PegCount) (x : PegCount) :
  c !! i = Some x → vector_get i c = Ok x.
Proof. unfold vector_get. by intros ->. Qed.

Lemma vector_set_lt (i : nat) (x : PegCount) (c : list PegCount) :
  (i < length c)%nat → vector_set i x c = Ok (<[i:=x]> c).
Proof. unfold vector_set. intros Hlt. by rewrite decide_True. Qed.

(** ** Descriptor arrays *)

Lemma entries_lookup (infos : list PegInfo) (i : nat) (q : PegInfo) :
  entries infos !! i = Some q → infos !! i = Some q.
Proof.
  revert i. induction infos as [|q0 infos IH]; intros i; simpl; [done|].
  destruct (name q0); [|done].
  destruct i as [|i]; simpl; [done | apply IH].
Qed.

Lemma entries_named (infos : list PegInfo) (q : PegInfo) :
  q ∈ entries infos → is_Some (name q).
Proof.
  induction infos as [|q0 infos IH]; simpl; [by intros ?%elem_of_nil|].
  destruct (name q0) eqn:Hq0; [|by intros ?%elem_of_nil].
  intros [->|Hin]%elem_of_cons; [by rewrite Hq0 | by apply IH].
Qed.

(** On a terminated array the walk stops at the first null name. *)
Lemma walk_pegs_entries (infos : list PegInfo) :
  ∀ n : Z,
    terminated infos →
    n + Z.of_nat (length (entries infos)) ≤ INT_MAX →
    walk_pegs infos n = Ok (n + Z.of_nat (length (entries infos))).
Proof.
  induction infos as [|q infos IH]; intros n (q0 & Hin & Hnull) Hmax.
  - by apply elem_of_nil in Hin.
  - cbn [walk_pegs entries] in *. destruct (name q) eqn:Hq.
    + rewrite length_cons, Nat2Z.inj_succ in *.
      assert ((n <? INT_MAX) = true) as -> by (apply Z.ltb_lt; lia).
      rewrite IH.
      * f_equal. lia.
      * apply elem_of_cons in Hin as [->|Hin]; [congruence|].
        exists q0. by split.
      * lia.
    + f_equal. simpl. lia.
Qed.

(** ** Resetting *)

Lemma zero_counts_replicate (m : module) :
  Z.to_nat (num_counts m) = length (counts m) →
  zero_counts m = Ok (with_counts (replicate (length (counts m)) 0) m).
Proof.
  intros Hlen. unfold zero_counts. rewrite Hlen.
  destruct (for_upto_inv
    (λ j mj, ∃ c, mj = with_counts c m ∧ length c = length (counts m) ∧
               ∀ k, (k < j)%nat → c !! k = Some 0)
    (λ i m, c ← vector_set i 0 (counts m); Ok (with_counts c m))
    (length (counts m)) O m) as (m' & -> & c & -> & Hc & Hzero).
  - exists (counts m). split; [by rewrite with_counts_id|]. split; [done|].
    intros k Hk. lia.
  - intros j mj Hj (c & -> & Hc & Hzero). simpl.
    rewrite vector_set_lt by lia. simpl.
    eexists. split; [done|]. exists (<[j:=0]> c).
    split; [done|]. split; [by rewrite length_insert|].
    intros k Hk. destruct (decide (k = j)) as [->|Hne].
    + apply list_lookup_insert_eq. lia.
    + rewrite list_lookup_insert_ne by done. apply Hzero. lia.
  - do 2 f_equal. apply list_eq. intros k.
    destruct (decide (k < length (counts m))%nat) as [Hlt|Hge].
    + rewrite Hzero by done. by rewrite lookup_replicate_2.
    + rewrite !(proj2 (lookup_ge_None _ _)); [done | | lia].
      rewrite length_replicate. lia.
Qed.

Lemma peg_total_static (m m' : module) :
  pegs m' = pegs m → peg_total m' = peg_total m.
Proof. unfold peg_total. by intros ->. Qed.

Lemma wf_unsized_counts (m : module) :
  wf m → num_counts m ≤ 0 → counts m = [].
Proof.
  intros [_ _ [[_ Hc]|[Hn Hc]]] Hle; [done|].
  apply nil_length_inv. lia.
Qed.

Lemma reset_stats_spec (m : module) :
  wf m → reset_stats m = Ok (reset_module m).
Proof.
  intros Hwf. unfold reset_stats, resolves_count, reset_module.
  destruct (num_counts m <=? 0) eqn:Hguard.
  - apply Z.leb_le in Hguard.
    pose proof (wf_unsized_counts m Hwf Hguard) as Hnil.
    unfold peg_total. cbn [pegs with_num_counts num_counts counts].
    destruct (pegs m) as [infos|] eqn:Hpegs.
    + destruct (wf_pegs m Hwf infos Hpegs) as [Hterm Hmax].
      rewrite walk_pegs_entries by (done || lia). simpl.
      rewrite Z.add_0_l, Nat2Z.id, Hnil.
      rewrite zero_counts_replicate; simpl.
      * by rewrite resize_nil, length_replicate.
      * by rewrite Nat2Z.id, length_resize.
    + destruct m; simpl in *; by subst.
  - apply Z.leb_gt in Hguard.
    destruct (wf_counts m Hwf) as [[Hn _]|[Hn Hc]]; [lia|].
    rewrite zero_counts_replicate by (rewrite Hn, Nat2Z.id; done).
    rewrite Hc, <- Hn. by destruct m.
Qed.

Lemma wf_reset_module (m : module) : wf m → wf (reset_module m).
Proof.
  intros [Hpegs Hlive Hcounts]. split; simpl.
  - done.
  - done.
  - right. unfold peg_total at 1 3. simpl. fold (peg_total m).
    by rewrite length_replicate.
Qed.

(** ** Aggregation *)

Lemma sum_peg_step (acc : bool) (i : nat) (m : module)
    (infos : list PegInfo) (p : list PegCount) (q : PegInfo)
    (v t : PegCount) :
  pegs m = Some infos → infos !! i = Some q →
  live m = Some p → p !! i = Some v →
  counts m !! i = Some t →
  sum_peg acc i m =
    Ok (with_live (Some (<[i:=agg_live (type q) v]> p))
          (with_counts (<[i:=agg_total acc (type q) t v]> (counts m)) m)).
Proof.
  intros Hpegs Hq Hlive Hv Ht.
  pose proof (lookup_lt_Some _ _ _ Hv) as Hip.
  pose proof (lookup_lt_Some _ _ _ Ht) as Hic.
  unfold sum_peg, peg_at, live_at. rewrite Hpegs, Hq, Hlive. simpl.
  destruct (type q); simpl.
  - rewrite !list_insert_id by done. destruct m; simpl in *; by subst.
  - rewrite (vector_get_Some _ _ _ Hv). simpl.
    unfold add_peg_count. rewrite (vector_get_Some _ _ _ Ht). simpl.
    rewrite vector_set_lt by done. simpl.
    unfold live_put. simpl. rewrite Hlive. simpl.
    rewrite vector_set_lt by done. done.
  - destruct acc.
    + rewrite (vector_get_Some _ _ _ Hv). simpl.
      unfold add_peg_count. rewrite (vector_get_Some _ _ _ Ht). simpl.
      rewrite vector_set_lt by done. simpl.
      rewrite (list_insert_id p) by done. destruct m; simpl in *; by subst.
    + rewrite !list_insert_id by done. destruct m; simpl in *; by subst.
  - rewrite (vector_get_Some _ _ _ Hv). simpl.
    unfold set_max_peg_count. rewrite (vector_get_Some _ _ _ Ht). simpl.
    rewrite (list_insert_id p) by done.
    destruct (t <? v) eqn:Hcmp.
    + apply Z.ltb_lt in Hcmp. rewrite vector_set_lt by done. simpl.
      rewrite Z.max_r by lia. destruct m; simpl in *; by subst.
    + apply Z.ltb_ge in Hcmp. rewrite Z.max_l by lia.
      rewrite list_insert_id by done. destruct m; simpl in *; by subst.
Qed.

(** The loop over the kinds: every index is aggregated from the values it
    had before the loop. *)
Lemma sum_peg_loop (acc : bool) (m : module) (infos : list PegInfo)
    (p : list PegCount) (n : nat) :
  pegs m = Some infos → live m = Some p →
  (n ≤ length (entries infos))%nat → (n ≤ length p)%nat →
  (n ≤ length (counts m))%nat →
  ∃ c' p',
    for_upto n 0 (sum_peg acc) m
      = Ok (with_live (Some p') (with_counts c' m)) ∧
    length c' = length (counts m) ∧ length p' = length p ∧
    ∀ k q v t, (k < n)%nat →
      entries infos !! k = Some q → p !! k = Some v →
      counts m !! k = Some t →
      c' !! k = Some (agg_total acc (type q) t v) ∧
      p' !! k = Some (agg_live (type q) v).
Proof.
  intros Hpegs Hlive Hn_infos Hn_p Hn_c.
  destruct (for_upto_inv
    (λ j mj, ∃ c' p',
       mj = with_live (Some p') (with_counts c' m) ∧
       length c' = length (counts m) ∧ length p' = length p ∧
       (∀ k, (j ≤ k)%nat → c' !! k = counts m !! k ∧ p' !! k = p !! k) ∧
       (∀ k q v t, (k < j)%nat →
          entries infos !! k = Some q → p !! k = Some v →
          counts m !! k = Some t →
          c' !! k = Some (agg_total acc (type q) t v) ∧
          p' !! k = Some (agg_live (type q) v)))
    (sum_peg acc) n O m)
    as (m' & Hrun & c' & p' & -> & Hc' & Hp' & _ & Hdone).
  - exists (counts m), p. split; [destruct m; simpl in *; by subst|].
    split; [done|]. split; [done|]. split; [done|].
    intros k q v t Hk. lia.
  - intros j mj Hj (c' & p' & -> & Hc' & Hp' & Hrest & Hdone).
    destruct (lookup_lt_is_Some_2 (entries infos) j) as [q Hq]; [lia|].
    destruct (lookup_lt_is_Some_2 p j) as [v Hv]; [lia|].
    destruct (lookup_lt_is_Some_2 (counts m) j) as [t Ht]; [lia|].
    destruct (Hrest j) as [Hcj Hpj]; [lia|].
    rewrite (sum_peg_step acc j _ infos p' q v t); simpl;
      [| done | by apply entries_lookup | done | congruence | congruence].
    eexists. split; [done|].
    exists (<[j:=agg_total acc (type q) t v]> c'),
      (<[j:=agg_live (type q) v]> p').
    split; [done|]. rewrite !length_insert. split; [done|]. split; [done|].
    split.
    + intros k Hk. rewrite !list_lookup_insert_ne by lia. apply Hrest. lia.
    + intros k q' v' t' Hk Hq' Hv' Ht'.
      destruct (decide (k = j)) as [->|Hne].
      * rewrite !list_lookup_insert_eq by lia. split; congruence.
      * rewrite !list_lookup_insert_ne by done. apply Hdone; [lia|done..].
  - exists c', p'. by rewrite Hrun.
Qed.

Lemma sum_global_loop (m : module) (p : list PegCount) (n : nat) :
  live m = Some p → (n ≤ length p)%nat → (n ≤ length (counts m))%nat →
  ∃ c', for_upto n 0 sum_global m = Ok (with_counts c' m) ∧
    length c' = length (counts m).
Proof.
  intros Hlive Hn_p Hn_c.
  destruct (for_upto_inv
    (λ (j : nat) mj, ∃ c', mj = with_counts c' m ∧
       length c' = length (counts m))
    sum_global n O m) as (m' & Hrun & c' & -> & Hc').
  - exists (counts m). by rewrite with_counts_id.
  - intros j mj Hj (c' & -> & Hc').
    destruct (lookup_lt_is_Some_2 p j) as [v Hv]; [lia|].
    unfold sum_global, live_at, set_peg_count. simpl. rewrite Hlive.
    rewrite (vector_get_Some _ _ _ Hv). simpl.
    rewrite vector_set_lt by lia. simpl.
    eexists. split; [done|]. exists (<[j:=v]> c').
    by rewrite length_insert.
  - exists c'. by rewrite Hrun.
Qed.

Lemma sized_spec (m : module) :
  wf m →
  wf (sized m) ∧ num_counts (sized m) = Z.of_nat (peg_total m) ∧
  length (counts (sized m)) = peg_total m ∧
  pegs (sized m) = pegs m ∧ live (sized m) = live m ∧
  global (sized m) = global m.
Proof.
  intros Hwf. unfold sized. destruct (num_counts m <? 0) eqn:Hneg.
  - split; [by apply wf_reset_module|]. simpl.
    by rewrite length_replicate.
  - apply Z.ltb_ge in Hneg. split; [done|].
    destruct (wf_counts m Hwf) as [[Hn _]|[Hn Hc]]; [lia | done].
Qed.

Lemma sized_recorded (m : module) (i : nat) :
  wf m → (i < peg_total m)%nat →
  counts (sized m) !! i = Some (recorded m i).
Proof.
  intros Hwf Hi. unfold sized, recorded.
  destruct (num_counts m <? 0) eqn:Hneg; simpl.
  - apply Z.ltb_lt in Hneg.
    rewrite (wf_unsized_counts m Hwf) by lia.
    by rewrite lookup_replicate_2.
  - apply Z.ltb_ge in Hneg.
    destruct (wf_counts m Hwf) as [[Hn _]|[_ Hc]]; [lia|].
    destruct (lookup_lt_is_Some_2 (counts m) i) as [t ->]; [lia | done].
Qed.

Lemma sum_stats_sized (debug acc : bool) (m : module) :
  wf m →
  sum_stats debug acc m =
    match live (sized m) with
    | None => Ok (sized m)
    | Some _ =>
        _ ← assert debug (bool_decide (is_Some (pegs (sized m))));
        if global (sized m) then
          for_upto (Z.to_nat (num_counts (sized m))) 0 sum_global (sized m)
        else
          for_upto (Z.to_nat (num_counts (sized m))) 0 (sum_peg acc)
            (sized m)
    end.
Proof.
  intros Hwf. unfold sum_stats, sized.
  destruct (num_counts m <? 0); [|done].
  by rewrite reset_stats_spec.
Qed.

(** [sum_stats] on a module that is not global: every descriptor's total and
    live value move as its kind says. *)
Lemma sum_stats_kinds (debug acc : bool) (m : module)
    (infos : list PegInfo) (p : list PegCount) :
  wf m → global m = false → pegs m = Some infos → live m = Some p →
  ∃ c' p',
    sum_stats debug acc m
      = Ok (with_live (Some p') (with_counts c' (sized m))) ∧
    length c' = peg_total m ∧ length p' = length p ∧
    ∀ k q v, entries infos !! k = Some q → p !! k = Some v →
      c' !! k = Some (agg_total acc (type q) (recorded m k) v) ∧
      p' !! k = Some (agg_live (type q) v).
Proof.
  intros Hwf Hglobal Hpegs Hlive.
  destruct (sized_spec m Hwf) as (Hwf' & Hn & Hc & Hpegs' & Hlive' & Hg').
  destruct (wf_live m Hwf p Hlive) as [_ Hp].
  assert (peg_total m = length (entries infos)) as Htotal
    by (unfold peg_total; by rewrite Hpegs).
  rewrite sum_stats_sized by done.
  rewrite Hlive', Hlive, Hpegs', Hpegs, Hg', Hglobal, Hn, Nat2Z.id.
  rewrite bool_decide_eq_true_2 by eauto. simpl.
  destruct (sum_peg_loop acc (sized m) infos p (peg_total m))
    as (c' & p' & Hrun & Hc' & Hp' & Hagg); [congruence | congruence | lia..|].
  exists c', p'. split; [done|]. split; [lia|]. split; [done|].
  intros k q v Hq Hv.
  apply (Hagg k q v (recorded m k)); [|done..|].
  - rewrite Htotal. by eapply lookup_lt_Some.
  - apply sized_recorded; [done|]. rewrite Htotal. by eapply lookup_lt_Some.
Qed.

Lemma wf_stats_update (m m' : module) :
  wf m → pegs m' = pegs m →
  num_counts m' = Z.of_nat (peg_total m) →
  length (counts m') = peg_total m →
  (∀ p', live m' = Some p' →
     is_Some (pegs m) ∧ (peg_total m ≤ length p')%nat) →
  wf m'.
Proof.
  intros [Hwp _ _] Hpegs Hn Hc Hlive.
  pose proof (peg_total_static m m' Hpegs) as Htotal.
  split.
  - rewrite Hpegs. apply Hwp.
  - rewrite Hpegs, Htotal. apply Hlive.
  - right. by rewrite Htotal.
Qed.

(** [sum_stats] returns on every well-formed module, and leaves it
    well-formed and sized. *)
Lemma sum_stats_ok (debug acc : bool) (m : module) :
  wf m →
  ∃ m', sum_stats debug acc m = Ok m' ∧ wf m' ∧
    pegs m' = pegs m ∧ global m' = global m ∧
    num_counts m' = Z.of_nat (peg_total m) ∧
    (live m = None → counts m' = counts (sized m)).
Proof.
  intros Hwf.
  destruct (sized_spec m Hwf) as (Hwf' & Hn & Hc & Hpegs' & Hlive' & Hg').
  destruct (live m) as [p|] eqn:Hlive.
  - destruct (wf_live m Hwf p Hlive) as [[infos Hpegs] Hp].
    destruct (global m) eqn:Hglobal.
    + rewrite sum_stats_sized by done.
      rewrite Hlive', Hpegs', Hpegs, Hg', Hn, Nat2Z.id.
      rewrite bool_decide_eq_true_2 by eauto. simpl.
      destruct (sum_global_loop (sized m) p (peg_total m))
        as (c' & Hrun & Hc'); [congruence | lia..|].
      exists (with_counts c' (sized m)). split; [done|].
      split; [|simpl; repeat split; congruence].
      apply (wf_stats_update m); simpl; [done | congruence | done | lia |].
      rewrite Hlive'. intros p' [= <-]. split; [eauto | done].
    + destruct (sum_stats_kinds debug acc m infos p)
        as (c' & p' & Hrun & Hc' & Hp' & _); [done..|].
      exists (with_live (Some p') (with_counts c' (sized m))).
      split; [done|]. split; [|simpl; repeat split; congruence].
      apply (wf_stats_update m); simpl; [done | congruence | done | lia |].
      intros p0 [= <-]. split; [eauto | lia].
  - rewrite sum_stats_sized, Hlive' by done.
    exists (sized m). done.
Qed.

(** What [sum_stats] does at one index of a module that is not global. *)
Lemma sum_stats_at (debug acc : bool) (m : module) (i : nat)
    (k : CountType) (v : PegCount) :
  wf m → global m = false →
  kind_at m i = Some k → live_value m i = Some v →
  ∃ m', sum_stats debug acc m = Ok m' ∧ wf m' ∧
    pegs m' = pegs m ∧ global m' = global m ∧
    recorded m' i = agg_total acc k (recorded m i) v ∧
    live_value m' i = Some (agg_live k v).
Proof.
  intros Hwf Hglobal Hkind Hv.
  unfold kind_at in Hkind. unfold live_value in Hv.
  destruct (pegs m) as [infos|] eqn:Hpegs; [|done].
  destruct (live m) as [p|] eqn:Hlive; [|done].
  simpl in Hkind, Hv.
  destruct (entries infos !! i) as [q|] eqn:Hq; [|done].
  injection Hkind as <-.
  destruct (sum_stats_ok debug acc m Hwf)
    as (m' & Hrun & Hwf' & Hpegs' & Hglobal' & _).
  destruct (sum_stats_kinds debug acc m infos p)
    as (c' & p' & Hrun' & _ & _ & Hagg); [done..|].
  destruct (Hagg i q v Hq Hv) as [Hc Hp].
  exists m'. split; [done|]. split; [done|]. split; [congruence|].
  split; [congruence|].
  rewrite Hrun' in Hrun. injection Hrun as <-.
  unfold recorded, live_value. simpl. by rewrite Hc, Hp.
Qed.

(** ** Sequences of statistics calls *)

Lemma kind_at_lt (m : module) (i : nat) (k : CountType) :
  kind_at m i = Some k → (i < peg_total m)%nat.
Proof.
  unfold kind_at, peg_total. destruct (pegs m) as [infos|]; [|done]. simpl.
  destruct (entries infos !! i) eqn:Hq; [|done].
  intros _. by eapply lookup_lt_Some.
Qed.

Lemma kind_at_static (m m' : module) (i : nat) :
  pegs m' = pegs m → kind_at m' i = kind_at m i.
Proof. unfold kind_at. by intros ->. Qed.

Lemma wf_live_value (m : module) (i : nat) (p : list PegCount) :
  wf m → live m = Some p → (i < peg_total m)%nat →
  ∃ v, live_value m i = Some v.
Proof.
  intros Hwf Hlive Hi. destruct (wf_live m Hwf p Hlive) as [_ Hp].
  unfold live_value. rewrite Hlive. simpl.
  apply lookup_lt_is_Some_2. lia.
Qed.

Lemma writes_fit_static (m m' : module) (ops : list stats_op) :
  pegs m' = pegs m → writes_fit m ops → writes_fit m' ops.
Proof.
  intros Hpegs Hfit p Hin. rewrite Hpegs, (peg_total_static m m') by done.
  by apply Hfit.
Qed.

Lemma writes_fit_cons (m : module) (op : stats_op) (ops : list stats_op) :
  writes_fit m (op :: ops) →
  writes_fit m [op] ∧ writes_fit m ops.
Proof.
  intros Hfit. split; intros p Hin; apply Hfit.
  - apply list_elem_of_singleton in Hin as <-. by left.
  - by right.
Qed.

Lemma wf_write (m : module) (p : list PegCount) :
  wf m → is_Some (pegs m) → (peg_total m ≤ length p)%nat →
  wf (with_live (Some p) m).
Proof.
  intros [Hwp Hwl Hwc] Hsome Hlen. split; simpl; [done | | done].
  by intros ? [= <-].
Qed.

(** Every call of a sequence returns, and leaves the module well-formed. *)
Lemma run_op_ok (debug : bool) (op : stats_op) (m : module) :
  wf m → writes_fit m [op] →
  ∃ m', run_op debug op m = Ok m' ∧ wf m' ∧
    pegs m' = pegs m ∧ global m' = global m ∧
    (num_counts m = Z.of_nat (peg_total m) ∨ op = Reset ∨ (∃ acc, op = Sum acc)
       → num_counts m' = Z.of_nat (peg_total m)).
Proof.
  intros Hwf Hfit. destruct op as [|acc|p]; simpl.
  - rewrite reset_stats_spec by done. exists (reset_module m).
    split; [done|]. split; [by apply wf_reset_module | done].
  - destruct (sum_stats_ok debug acc m Hwf)
      as (m' & Hrun & Hwf' & Hpegs & Hglobal & Hn & _).
    exists m'. done.
  - exists (with_live (Some p) m). split; [done|].
    destruct (Hfit p) as [Hsome Hlen]; [by left|].
    split; [by apply wf_write|]. simpl. repeat split.
    intros [Hn | [? | [acc ?]]]; done.
Qed.

Lemma run_stats_app (debug : bool) (ops1 ops2 : list stats_op) (m : module) :
  run_stats debug (ops1 ++ ops2) m =
    run_stats debug ops1 m ≫= run_stats debug ops2.
Proof.
  revert m. induction ops1 as [|op ops1 IH]; intros m; simpl; [done|].
  destruct (run_op debug op m); simpl; [apply IH | done | done].
Qed.

Lemma run_stats_ok (debug : bool) (ops : list stats_op) :
  ∀ m, wf m → writes_fit m ops →
    ∃ m', run_stats debug ops m = Ok m' ∧ wf m' ∧
      pegs m' = pegs m ∧ global m' = global m ∧
      (num_counts m = Z.of_nat (peg_total m) →
       num_counts m' = Z.of_nat (peg_total m)).
Proof.
  induction ops as [|op ops IH]; intros m Hwf Hfit; simpl.
  - exists m. done.
  - apply writes_fit_cons in Hfit as [Hop Hops].
    destruct (run_op_ok debug op m Hwf Hop)
      as (m1 & -> & Hwf1 & Hpegs1 & Hglobal1 & Hn1).
    destruct (IH m1 Hwf1) as (m' & Hrun & Hwf' & Hpegs' & Hglobal' & Hn').
    { by apply (writes_fit_static m). }
    exists m'. simpl. split; [done|]. split; [done|].
    split; [congruence|]. split; [congruence|].
    intros Hn. rewrite Hn', (peg_total_static m m1); auto.
    rewrite (peg_total_static m m1); auto.
Qed.

(** The total of a MAX counter does not go down over a call that is not
    [reset_stats]. *)
Lemma max_total_step (debug : bool) (op : stats_op) (m : module) (i : nat) :
  wf m → global m = false → kind_at m i = Some MAX →
  op ≠ Reset → writes_fit m [op] →
  ∃ m', run_op debug op m = Ok m' ∧ wf m' ∧
    pegs m' = pegs m ∧ global m' = global m ∧
    recorded m i ≤ recorded m' i.
Proof.
  intros Hwf Hglobal Hkind Hop Hfit.
  destruct (run_op_ok debug op m Hwf Hfit)
    as (m' & Hrun & Hwf' & Hpegs & Hglobal' & _).
  exists m'. split; [done|]. split; [done|]. split; [done|]. split; [done|].
  destruct op as [|acc|p]; simpl in Hrun; [done| |].
  - destruct (live m) as [p|] eqn:Hlive.
    + destruct (wf_live_value m i p Hwf Hlive) as [v Hv];
        [by eapply kind_at_lt|].
      destruct (sum_stats_at debug acc m i MAX v)
        as (m2 & Hrun2 & _ & _ & _ & Hrec & _); [done..|].
      rewrite Hrun in Hrun2. injection Hrun2 as <-.
      rewrite Hrec. simpl. lia.
    + destruct (sum_stats_ok debug acc m Hwf)
        as (m2 & Hrun2 & _ & _ & _ & _ & Hcounts).
      rewrite Hrun in Hrun2. injection Hrun2 as <-.
      unfold recorded at 2. rewrite Hcounts by done.
      rewrite sized_recorded; [done | done | by eapply kind_at_lt].
  - injection Hrun as <-. done.
Qed.

Lemma max_total_run (debug : bool) (ops : list stats_op) (i : nat) :
  ∀ m, wf m → global m = false → kind_at m i = Some MAX →
    sums_only ops → writes_fit m ops →
    ∃ m', run_stats debug ops m = Ok m' ∧ wf m' ∧
      pegs m' = pegs m ∧ global m' = global m ∧
      recorded m i ≤ recorded m' i.
Proof.
  induction ops as [|op ops IH]; intros m Hwf Hglobal Hkind Hsums Hfit;
    simpl.
  - exists m. done.
  - apply writes_fit_cons in Hfit as [Hop Hops].
    destruct (max_total_step debug op m i)
      as (m1 & -> & Hwf1 & Hpegs1 & Hglobal1 & Hle1); [done..| |done|].
    { intros ->. apply Hsums. by left. }
    destruct (IH m1) as (m' & Hrun & Hwf' & Hpegs' & Hglobal' & Hle');
      [done | congruence | by rewrite (kind_at_static m m1) | |
       by apply (writes_fit_static m) |].
    { intros Hin. apply Hsums. by right. }
    exists m'. simpl. split; [done|]. split; [done|].
    split; [congruence|]. split; [congruence | lia].
Qed.

Ltac solve_wf :=
  split; simpl;
  [ intros ? [= <-]; split;
    [ eexists; split; [apply list_elem_of_In; simpl; eauto 10 | reflexivity]
    | vm_compute; discriminate ]
  | intros ? [= <-]; split; [eauto | vm_compute; lia]
  | first [ left; split; reflexivity | right; split; reflexivity ] ].

(** ** Aggregation by kind *)

Lemma peg_add_0_r (a b : PegCount) : peg_add (peg_add a b) 0 = peg_add a b.
Proof. unfold peg_add. by rewrite Z.add_0_r, Z.mod_mod. Qed.

Lemma peg_add_exact (a b : PegCount) :
  0 ≤ a → 0 ≤ b → a + b < PEG_MODULUS → peg_add a b = a + b.
Proof. intros Ha Hb Hlt. unfold peg_add. apply Z.mod_small. lia. Qed.

(** C1: on a module that is not global, [sum_stats] adds the live value [v]
    of a SUM counter to its recorded total, in the 64-bit unsigned
    arithmetic of [PegCount] (exactly [v] more whenever the sum fits), and
    sets the live value to 0; the next [sum_stats], with no write in
    between, leaves the total where it is. *)
Theorem sum_kind_flushes (debug acc : bool) (m : module) (i : nat)
    (v : PegCount) :
  wf m → global m = false →
  kind_at m i = Some SUM → live_value m i = Some v →
  ∃ m', sum_stats debug acc m = Ok m' ∧
    recorded m' i = peg_add (recorded m i) v ∧
    (0 ≤ recorded m i → 0 ≤ v → recorded m i + v < PEG_MODULUS →
       recorded m' i = recorded m i + v) ∧
    live_value m' i = Some 0 ∧
    ∀ acc', ∃ m'', sum_stats debug acc' m' = Ok m'' ∧
      recorded m'' i = recorded m' i ∧ live_value m'' i = Some 0.
Proof.
  intros Hwf Hglobal Hkind Hv.
  destruct (sum_stats_at debug acc m i SUM v)
    as (m' & Hrun & Hwf' & Hpegs & Hglobal' & Hrec & Hlive); [done..|].
  simpl in Hrec, Hlive.
  exists m'. split; [done|]. split; [done|]. split.
  { intros. rewrite Hrec. by apply peg_add_exact. }
  split; [done|]. intros acc'.
  destruct (sum_stats_at debug acc' m' i SUM 0)
    as (m'' & Hrun' & _ & _ & _ & Hrec' & Hlive');
    [done | congruence | by rewrite (kind_at_static m m') | done |].
  exists m''. split; [done|]. split; [|done].
  simpl in Hrec'. rewrite Hrec', Hrec. apply peg_add_0_r.
Qed.

(** End-to-end scenario 1 of the spec on a module with a total of 10
    already recorded. *)
Lemma sum_kind_flushes_witness :
  ∃ m', sum_stats true false (kinds_module [10; 20; 30] [5; 7; 9]) = Ok m' ∧
    recorded m' 0 = 15 ∧ live_value m' 0 = Some 0 ∧
    ∃ m'', sum_stats true false m' = Ok m'' ∧ recorded m'' 0 = 15.
Proof.
  destruct (sum_kind_flushes true false
              (kinds_module [10; 20; 30] [5; 7; 9]) 0 5)
    as (m' & Hrun & Hrec & _ & Hlive & Hagain);
    [solve_wf | reflexivity | reflexivity | reflexivity |].
  destruct (Hagain false) as (m'' & Hrun' & Hrec' & _).
  exists m'. split; [exact Hrun|]. split; [exact Hrec|].
  split; [exact Hlive|].
  exists m''. split; [exact Hrun'|]. rewrite Hrec'. exact Hrec.
Defined.

(** C2: on a module that is not global, [sum_stats(false)] leaves the
    recorded total and the live value of a NOW counter as they are;
    [sum_stats(true)] adds the live value to the recorded total, in the
    64-bit unsigned arithmetic of [PegCount], and leaves the live value as
    it is. *)
Theorem now_kind_on_request (debug : bool) (m : module) (i : nat)
    (v : PegCount) :
  wf m → global m = false →
  kind_at m i = Some NOW → live_value m i = Some v →
  (∃ m', sum_stats debug false m = Ok m' ∧
     recorded m' i = recorded m i ∧ live_value m' i = Some v) ∧
  (∃ m', sum_stats debug true m = Ok m' ∧
     recorded m' i = peg_add (recorded m i) v ∧
     (0 ≤ recorded m i → 0 ≤ v → recorded m i + v < PEG_MODULUS →
        recorded m' i = recorded m i + v) ∧
     live_value m' i = Some v).
Proof.
  intros Hwf Hglobal Hkind Hv. split.
  - destruct (sum_stats_at debug false m i NOW v)
      as (m' & Hrun & _ & _ & _ & Hrec & Hlive); [done..|].
    by exists m'.
  - destruct (sum_stats_at debug true m i NOW v)
      as (m' & Hrun & _ & _ & _ & Hrec & Hlive); [done..|].
    simpl in Hrec, Hlive.
    exists m'. split; [done|]. split; [done|]. split; [|done].
    intros. rewrite Hrec. by apply peg_add_exact.
Qed.

Lemma now_kind_on_request_witness :
  (∃ m', sum_stats true false (kinds_module [10; 20; 30] [5; 7; 9]) = Ok m' ∧
     recorded m' 1 = 20 ∧ live_value m' 1 = Some 7) ∧
  (∃ m', sum_stats true true (kinds_module [10; 20; 30] [5; 7; 9]) = Ok m' ∧
     recorded m' 1 = 27 ∧ live_value m' 1 = Some 7).
Proof.
  destruct (now_kind_on_request true
              (kinds_module [10; 20; 30] [5; 7; 9]) 1 7)
    as [(m1 & Hrun1 & Hrec1 & Hlive1) (m2 & Hrun2 & Hrec2 & _ & Hlive2)];
    [solve_wf | reflexivity | reflexivity | reflexivity |].
  split.
  - exists m1. split; [exact Hrun1|]. split; [exact Hrec1 | exact Hlive1].
  - exists m2. split; [exact Hrun2|]. split; [exact Hrec2 | exact Hlive2].
Defined.

(** C3: on a module that is not global, after [sum_stats] the recorded
    total of a MAX counter is the maximum of the total before and the live
    value; and along every sequence of [sum_stats] calls, whatever is
    written to the live counters in between, the total never goes down. *)
Theorem max_kind_high_water (debug : bool) (m : module) (i : nat) :
  wf m → global m = false → kind_at m i = Some MAX →
  (∀ acc v, live_value m i = Some v →
     ∃ m', sum_stats debug acc m = Ok m' ∧
       recorded m' i = Z.max (recorded m i) v) ∧
  (∀ ops1 ops2,
     sums_only (ops1 ++ ops2) → writes_fit m (ops1 ++ ops2) →
     ∃ m1 m2, run_stats debug ops1 m = Ok m1 ∧
       run_stats debug (ops1 ++ ops2) m = Ok m2 ∧
       recorded m i ≤ recorded m1 i ∧ recorded m1 i ≤ recorded m2 i).
Proof.
  intros Hwf Hglobal Hkind. split.
  - intros acc v Hv.
    destruct (sum_stats_at debug acc m i MAX v)
      as (m' & Hrun & _ & _ & _ & Hrec & _); [done..|].
    by exists m'.
  - intros ops1 ops2 Hsums Hfit.
    destruct (max_total_run debug ops1 i m)
      as (m1 & Hrun1 & Hwf1 & Hpegs1 & Hglobal1 & Hle1); [done..| | |].
    { intros Hin. apply Hsums, elem_of_app. by left. }
    { intros p Hin. apply Hfit, elem_of_app. by left. }
    destruct (max_total_run debug ops2 i m1)
      as (m2 & Hrun2 & _ & _ & _ & Hle2);
      [done | congruence | by rewrite (kind_at_static m m1) | | |].
    { intros Hin. apply Hsums, elem_of_app. by right. }
    { apply (writes_fit_static m); [done|].
      intros p Hin. apply Hfit, elem_of_app. by right. }
    exists m1, m2. rewrite run_stats_app, Hrun1. done.
Qed.

Lemma max_kind_high_water_witness :
  let m := kinds_module [10; 20; 30] [5; 7; 9] in
  (∃ m', sum_stats true false m = Ok m' ∧ recorded m' 2 = 30) ∧
  (∃ m1 m2,
     run_stats true [Write [0; 0; 41]; Sum false] m = Ok m1 ∧
     run_stats true
       ([Write [0; 0; 41]; Sum false] ++ [Write [0; 0; 3]; Sum true]) m
       = Ok m2 ∧
     30 ≤ recorded m1 2 ∧ recorded m1 2 ≤ recorded m2 2).
Proof.
  intros m.
  destruct (max_kind_high_water true m 2) as [Hone Hseq];
    [solve_wf | reflexivity | reflexivity |].
  split.
  - destruct (Hone false 9 eq_refl) as (m' & Hrun & Hrec).
    exists m'. split; [exact Hrun | exact Hrec].
  - destruct (Hseq [Write [0; 0; 41]; Sum false]
                [Write [0; 0; 3]; Sum true])
      as (m1 & m2 & Hrun1 & Hrun2 & Hle1 & Hle2).
    + intros Hin. simpl in Hin.
      repeat (apply elem_of_cons in Hin as [Hin|Hin]; [discriminate|]).
      by apply elem_of_nil in Hin.
    + intros p Hin. split; [by eexists|].
      simpl in Hin. rewrite !elem_of_cons, elem_of_nil in Hin.
      destruct Hin as [[= ->]|[[=]|[[= ->]|[[=]|[]]]]]; vm_compute; lia.
    + exists m1, m2. split; [exact Hrun1|]. split; [exact Hrun2|].
      split; [exact Hle1 | exact Hle2].
Defined.

(** ** The counter count *)

(** C7, as stated, fails on a module without counters: its count resolves
    to 0, and [reset_stats] sizes on [num_counts <= 0], so the next
    [reset_stats] walks the descriptor array again. *)
Lemma counter_count_recomputed_counterexample :
  ¬ resolved_once true no_pegs_module.
Proof.
  intros Hclaim.
  destruct (Hclaim Reset) as (m1 & Hrun & Hlater); [by left|].
  destruct (Hlater []) as (m2 & Hrun2 & _ & Hnever).
  { intros p Hin. by apply elem_of_nil in Hin. }
  vm_compute in Hrun. injection Hrun as <-.
  vm_compute in Hrun2. injection Hrun2 as <-.
  specialize (Hnever Reset). vm_compute in Hnever. discriminate.
Qed.

Lemma first_call_resolves (debug : bool) (m : module) (first : stats_op) :
  wf m → num_counts m = -1 →
  first = Reset ∨ (∃ acc, first = Sum acc) →
  ∃ m1, run_op debug first m = Ok m1 ∧
    num_counts m1 = Z.of_nat (peg_total m) ∧
    ∀ ops, writes_fit m ops →
      ∃ m2, run_stats debug ops m1 = Ok m2 ∧
        num_counts m2 = num_counts m1 ∧
        (∀ acc, recomputes (Sum acc) m2 = false) ∧
        (0 < num_counts m1 → recomputes Reset m2 = false).
Proof.
  intros Hwf Hnew Hfirst.
  destruct (run_op_ok debug first m Hwf)
    as (m1 & Hrun & Hwf1 & Hpegs1 & _ & Hn1).
  { intros p Hin. apply list_elem_of_singleton in Hin.
    destruct Hfirst as [->|[acc ->]]; discriminate. }
  assert (num_counts m1 = Z.of_nat (peg_total m)) as Hm1
    by (apply Hn1; by right).
  exists m1. split; [done|]. split; [done|].
  intros ops Hfit.
  destruct (run_stats_ok debug ops m1 Hwf1)
    as (m2 & Hrun2 & _ & _ & _ & Hn2).
  { by apply (writes_fit_static m). }
  rewrite (peg_total_static m m1) in Hn2 by done.
  specialize (Hn2 Hm1).
  exists m2. split; [done|]. split; [congruence|].
  unfold recomputes, resolves_count. split.
  - intros _. rewrite Hn2.
    assert ((Z.of_nat (peg_total m) <? 0) = false) as -> by lia. done.
  - intros Hpos. rewrite Hn2. lia.
Qed.

(** The claim as the spec has it does hold for the modules that have
    counters. *)
Lemma resolved_once_counters (debug : bool) (m : module) :
  wf m → num_counts m = -1 → (0 < peg_total m)%nat →
  resolved_once debug m.
Proof.
  intros Hwf Hnew Hpos first Hfirst.
  destruct (first_call_resolves debug m first Hwf Hnew Hfirst)
    as (m1 & Hrun & Hn1 & Hlater).
  exists m1. split; [done|]. intros ops Hfit.
  destruct (Hlater ops Hfit) as (m2 & Hrun2 & Hn2 & Hsum & Hreset).
  exists m2. split; [done|]. split; [done|].
  intros [|acc|p]; [apply Hreset; lia | apply Hsum | done].
Qed.

(** C7, amended: [num_counts] starts at -1; the first [reset_stats] or
    [sum_stats] on a new module enters the sizing block and sets it to the
    number of descriptors before the sentinel; no later [reset_stats] or
    [sum_stats] changes its value; [sum_stats] never computes it again, and
    [reset_stats] does not compute it again when it is positive. *)
Theorem counter_count_cached (debug : bool) (m : module) (first : stats_op) :
  wf m → num_counts m = -1 →
  first = Reset ∨ (∃ acc, first = Sum acc) →
  (∀ s h a, num_counts (Module_new s h a) = -1) ∧
  (∀ s h l t tp tm a, num_counts (Module_new_trace s h l t tp tm a) = -1) ∧
  recomputes first m = true ∧
  ∃ m1, run_op debug first m = Ok m1 ∧
    num_counts m1 = Z.of_nat (peg_total m) ∧
    ∀ ops, writes_fit m ops →
      ∃ m2, run_stats debug ops m1 = Ok m2 ∧
        num_counts m2 = num_counts m1 ∧
        (∀ acc, recomputes (Sum acc) m2 = false) ∧
        (0 < num_counts m1 → recomputes Reset m2 = false).
Proof.
  intros Hwf Hnew Hfirst. split; [done|]. split; [done|]. split.
  - unfold recomputes, resolves_count.
    destruct Hfirst as [->|[acc ->]]; rewrite Hnew; done.
  - by apply first_call_resolves.
Qed.

Lemma counter_count_cached_witness :
  let m := Module_new "kinds" None
             {| get_pegs := Some kinds_pegs; get_counts := Some [5; 7; 9];
                global_stats := false |} in
  num_counts m = -1 ∧
  ∃ m1, sum_stats true false m = Ok m1 ∧ num_counts m1 = 3 ∧
    ∃ m2, run_stats true [Reset; Write [1; 2; 3]; Sum true; Reset] m1
            = Ok m2 ∧
      num_counts m2 = 3 ∧ recomputes Reset m2 = false.
Proof.
  intros m.
  destruct (counter_count_cached true m (Sum false))
    as (_ & _ & _ & m1 & Hrun & Hn & Hlater);
    [solve_wf | reflexivity | right; by exists false |].
  split; [reflexivity|].
  exists m1. split; [exact Hrun|]. split; [exact Hn|].
  destruct (Hlater [Reset; Write [1; 2; 3]; Sum true; Reset])
    as (m2 & Hrun2 & Hn2 & _ & Hreset).
  { intros p Hin. split; [by eexists|].
    rewrite !elem_of_cons, elem_of_nil in Hin.
    destruct Hin as [[=]|[[= ->]|[[=]|[[=]|[]]]]]. vm_compute. lia. }
  exists m2. split; [exact Hrun2|]. split.
  - rewrite Hn2. exact Hn.
  - apply Hreset. rewrite Hn. vm_compute. reflexivity.
Defined.

(** ** Lookup by name *)

Lemma find_peg_found (infos : list PegInfo) (nm : string) :
  ∀ (k : Z) (i : nat) (q : PegInfo),
    entries infos !! i = Some q → name q = Some nm →
    (∀ j q', (j < i)%nat → entries infos !! j = Some q' →
       name q' ≠ Some nm) →
    0 ≤ k → k + Z.of_nat i < 2 ^ 32 →
    find_peg infos nm k = Ok (Some (Z.to_nat k + i)%nat).
Proof.
  induction infos as [|q0 infos IH]; intros k i q Hq Hname Hfirst Hk Hmax;
    cbn [entries find_peg] in *; [done|].
  destruct (name q0) as [s|] eqn:Hq0; [|done].
  destruct i as [|i]; simpl in Hq.
  - injection Hq as ->. rewrite Hname in Hq0. injection Hq0 as ->.
    rewrite bool_decide_eq_true_2 by done. by rewrite Nat.add_0_r.
  - rewrite bool_decide_eq_false_2.
    2:{ intros ->. by apply (Hfirst O q0); [lia | |]. }
    assert ((k <? 2 ^ 32 - 1) = true) as -> by lia.
    rewrite (IH (k + 1) i q); [do 2 f_equal; lia | done | done | | lia | lia].
    intros j q' Hj Hq'. apply (Hfirst (S j)); [lia | done].
Qed.

Lemma find_peg_absent (infos : list PegInfo) (nm : string) :
  ∀ k : Z,
    terminated infos →
    (∀ q, q ∈ entries infos → name q ≠ Some nm) →
    0 ≤ k → k + Z.of_nat (length (entries infos)) < 2 ^ 32 →
    find_peg infos nm k = Ok None.
Proof.
  induction infos as [|q0 infos IH]; intros k (q & Hin & Hnull) Habsent Hk Hmax;
    cbn [entries find_peg] in *.
  - by apply elem_of_nil in Hin.
  - destruct (name q0) as [s|] eqn:Hq0; [|done].
    rewrite length_cons, Nat2Z.inj_succ in Hmax.
    rewrite bool_decide_eq_false_2.
    2:{ intros ->. apply (Habsent q0); [by left | done]. }
    assert ((k <? 2 ^ 32 - 1) = true) as -> by lia.
    apply IH; [| | lia | lia].
    + apply elem_of_cons in Hin as [->|Hin]; [congruence|].
      exists q. by split.
    + intros q' Hq'. apply Habsent. by right.
Qed.




(** ** New modules *)

(** A new module is well-formed when its class hands out a terminated
    descriptor array and live storage for every descriptor; the calls above
    keep it so ([run_stats_ok]). *)
Lemma Module_new_wf (s : string) (h : option string) (a : accessors) :
  (∀ infos, get_pegs a = Some infos →
     terminated infos ∧ Z.of_nat (length (entries infos)) ≤ INT_MAX) →
  (∀ p infos, get_counts a = Some p → get_pegs a = Some infos →
     (length (entries infos) ≤ length p)%nat) →
  (is_Some (get_counts a) → is_Some (get_pegs a)) →
  wf (Module_new s h a).
Proof.
  intros Hpegs Hlen Hboth. split; simpl.
  - done.
  - intros p Hp. destruct (Hboth (mk_is_Some _ _ Hp)) as [infos Hinfos].
    split; [by exists infos|].
    unfold peg_total. simpl. rewrite Hinfos. by apply (Hlen p).
  - by left.
Qed.

(** ** Trace masks: more *)

Lemma TraceMask_scan_bits (tvs : list TraceValue) (v : Value) (t : Trace) :
  TraceMask_scan tvs v (Some t) =
    Ok (bool_decide (is_Some (named_entry {| values := tvs |} v)),
        Some (Z.lor t (trace_bits {| values := tvs |} v))).
Proof.
  unfold trace_bits, named_entry. simpl.
  induction tvs as [|tv tvs IH]; simpl.
  - by rewrite Z.lor_0_r.
  - destruct (Value_is v (alias tv)); [|done].
    rewrite bool_decide_eq_true_2 by eauto.
    destruct (get_uint8 v =? 0); simpl; [by rewrite Z.lor_0_r | done].
Qed.

Lemma TraceMask_set_bits (tm : TraceMask) (v : Value) (t : Trace) :
  TraceMask_set tm v (Some t) =
    Ok (bool_decide (is_Some (named_entry tm v)),
        Some (Z.lor t (trace_bits tm v))).
Proof. destruct tm as [tvs]. apply TraceMask_scan_bits. Qed.

Lemma TraceMask_set_each_bits (tm : TraceMask) (vs : list Value) :
  ∀ t : Trace, ∃ t',
    TraceMask_set_each tm vs (Some t) = Ok (Some t') ∧
    ∀ n, Z.testbit t' n = true ↔
      Z.testbit t n = true ∨
      ∃ v, v ∈ vs ∧ Z.testbit (trace_bits tm v) n = true.
Proof.
  induction vs as [|v vs IH]; intros t; simpl.
  - exists t. split; [done|]. intros n. split; [by left|].
    intros [Hn | (v & Hin & _)]; [done | by apply elem_of_nil in Hin].
  - rewrite TraceMask_set_bits. simpl.
    destruct (IH (Z.lor t (trace_bits tm v))) as (t' & -> & Hbits).
    exists t'. split; [done|]. intros n. rewrite Hbits, Z.lor_spec.
    rewrite orb_true_iff. split.
    + intros [[Hn | Hn] | (v' & Hin & Hn)].
      * by left.
      * right. exists v. split; [by left | done].
      * right. exists v'. split; [by right | done].
    + intros [Hn | (v' & [->|Hin]%elem_of_cons & Hn)].
      * by left; left.
      * by left; right.
      * right. by exists v'.
Qed.

(** X1: the mask that a run of [TraceMask::set] calls leaves in a target
    depends on which values were applied, not on their order nor on how
    often each was applied; and it keeps every bit of the target. *)
Theorem TraceMask_set_each_order (tm : TraceMask) (vs vs' : list Value)
    (t : Trace) :
  (∀ v, v ∈ vs ↔ v ∈ vs') →
  ∃ t', TraceMask_set_each tm vs (Some t) = Ok (Some t') ∧
    TraceMask_set_each tm vs' (Some t) = Ok (Some t') ∧
    ∀ n, Z.testbit t n = true → Z.testbit t' n = true.
Proof.
  intros Hsame.
  destruct (TraceMask_set_each_bits tm vs t) as (t1 & Hrun1 & Hbits1).
  destruct (TraceMask_set_each_bits tm vs' t) as (t2 & Hrun2 & Hbits2).
  assert (t2 = t1) as ->.
  { apply Z.bits_inj. intros n.
    apply eq_true_iff_eq. rewrite Hbits1, Hbits2.
    by setoid_rewrite Hsame. }
  exists t1. split; [done|]. split; [done|].
  intros n Hn. apply Hbits1. by left.
Qed.

Lemma TraceMask_set_each_order_witness :
  let tm := {| values := [ {| alias := "a"; mask := 2 |};
                           {| alias := "b"; mask := 4 |} ] |} in
  let a := {| opt_name := "a"; num := 1 |} in
  let b := {| opt_name := "b"; num := 1 |} in
  TraceMask_set_each tm [a; b] (Some 1) = Ok (Some 7) ∧
  TraceMask_set_each tm [b; a; b] (Some 1) = Ok (Some 7).
Proof.
  intros tm a b.
  destruct (TraceMask_set_each_order tm [a; b] [b; a; b] 1)
    as (t' & Hrun1 & Hrun2 & _).
  { intros v. rewrite !elem_of_cons, elem_of_nil. tauto. }
  assert (t' = 7) as -> by (vm_compute in Hrun1; congruence).
  split; [exact Hrun1 | exact Hrun2].
Defined.

(** X2: [TraceMask::set] dereferences its target only to set bits: with a
    null target it still answers false when no alias matches and true when
    the first matching value reads as zero, and it is undefined exactly
    when the first matching value reads nonzero. *)
Theorem TraceMask_set_null_target (tm : TraceMask) (v : Value) :
  (named_entry tm v = None →
     TraceMask_set tm v None = Ok (false, None)) ∧
  (is_Some (named_entry tm v) → get_uint8 v = 0 →
     TraceMask_set tm v None = Ok (true, None)) ∧
  (is_Some (named_entry tm v) → get_uint8 v ≠ 0 →
     TraceMask_set tm v None = Undefined).
Proof.
  destruct tm as [tvs]. unfold TraceMask_set, named_entry. simpl.
  induction tvs as [|tv tvs (IHnone & IHzero & IHbits)]; simpl.
  - split; [done|]. split; by intros [? ?].
  - destruct (Value_is v (alias tv)).
    + split; [done|]. split.
      * intros _ ->. done.
      * intros _ Hnz. by apply Z.eqb_neq in Hnz as ->.
    + done.
Qed.

Lemma TraceMask_set_null_target_witness :
  TraceMask_set s_default_trace_values {| opt_name := "none"; num := 1 |}
    None = Ok (false, None) ∧
  TraceMask_set s_default_trace_values {| opt_name := "all"; num := 0 |}
    None = Ok (true, None) ∧
  TraceMask_set s_default_trace_values {| opt_name := "all"; num := 1 |}
    None = Undefined.
Proof.
  split; [|split].
  - apply (TraceMask_set_null_target s_default_trace_values
             {| opt_name := "none"; num := 1 |}). reflexivity.
  - apply (TraceMask_set_null_target s_default_trace_values
             {| opt_name := "all"; num := 0 |}); [by eexists | reflexivity].
  - apply (TraceMask_set_null_target s_default_trace_values
             {| opt_name := "all"; num := 1 |});
      [by eexists | vm_compute; discriminate].
Defined.

(** ** The default value-set hook: more *)

(** X3: on a module with a trace target, [Module::set] always returns; it
    changes nothing but the trace target, and in the target it only adds
    bits. *)
Theorem Module_set_only_adds_bits (m : module) (fqn : string) (v : Value)
    (t : Trace) :
  trace m = Some t →
  ∃ r t', Module_set m fqn v = Ok (r, with_trace (Some t') m) ∧
    ∀ n, Z.testbit t n = true → Z.testbit t' n = true.
Proof.
  intros Htrace. unfold Module_set.
  assert (m = with_trace (Some t) m) as Hm
    by (rewrite <- Htrace; symmetry; apply with_trace_id).
  destruct (strstr fqn ".trace.") as [k|];
    [|exists false, t; by rewrite <- Hm].
  destruct (trace_mask m) as [tm|]; [|exists false, t; by rewrite <- Hm].
  rewrite Htrace, TraceMask_set_bits. simpl.
  eexists _, _. split; [done|]. intros n. apply lor_keeps_bits.
Qed.

Lemma Module_set_only_adds_bits_witness :
  let m := Module_new_trace "m" None false (Some 6) false None no_accessors in
  ∃ r t', Module_set m "m.trace.all" {| opt_name := "all"; num := 3 |}
            = Ok (r, with_trace (Some t') m) ∧
    Z.testbit t' 1 = true ∧ Z.testbit t' 2 = true.
Proof.
  intros m.
  destruct (Module_set_only_adds_bits m "m.trace.all"
              {| opt_name := "all"; num := 3 |} 6 eq_refl)
    as (r & t' & Hrun & Hbits).
  exists r, t'. split; [exact Hrun|].
  split; apply Hbits; reflexivity.
Defined.

(** X4: the name handed to [Module::set] only opens the gate: two names
    that both contain [.trace.] give the same answer and the same module,
    because the option is looked up by the name the value carries. *)
Theorem Module_set_fqn_gates (m : module) (fqn fqn' : string) (v : Value) :
  contains fqn ".trace." → contains fqn' ".trace." →
  Module_set m fqn v = Module_set m fqn' v.
Proof.
  intros [k Hk]%strstr_contains [k' Hk']%strstr_contains.
  unfold Module_set. by rewrite Hk, Hk'.
Qed.

Lemma Module_set_fqn_gates_witness :
  let m := Module_new_trace "m" None false (Some 0) false None no_accessors in
  let v := {| opt_name := "all"; num := 1 |} in
  Module_set m "m.trace.all" v = Module_set m "other.trace.none" v ∧
  Module_set m "other.trace.none" v = Ok (true, with_trace (Some 1) m).
Proof.
  intros m v. split; [|reflexivity].
  apply Module_set_fqn_gates; [by exists "m", "all" | by exists "other", "none"].
Defined.

(** X5: a module constructed with a trace target and no trace parameters of
    its own gets the built-in trace mask: under any name that contains
    [.trace.], a value named [all] is accepted and, when it reads nonzero,
    sets bit 0 of the target; every other value is refused and changes
    nothing. *)
Theorem default_trace_mask_all (s : string) (h : option string)
    (list_flag : bool) (t : Trace) (unused : option TraceMask)
    (a : accessors) (fqn : string) (v : Value) :
  contains fqn ".trace." →
  let m := Module_new_trace s h list_flag (Some t) false unused a in
  (opt_name v = "all" → get_uint8 v ≠ 0 →
     Module_set m fqn v = Ok (true, with_trace (Some (Z.lor t 1)) m)) ∧
  (opt_name v = "all" → get_uint8 v = 0 →
     Module_set m fqn v = Ok (true, m)) ∧
  (opt_name v ≠ "all" → Module_set m fqn v = Ok (false, m)).
Proof.
  intros Hin m.
  rewrite (Module_set_bound m fqn v s_default_trace_values Hin eq_refl).
  unfold TraceMask_set, Value_is. simpl. unfold Value_is.
  split; [|split].
  - intros -> Hnz. rewrite bool_decide_eq_true_2 by done.
    by apply Z.eqb_neq in Hnz as ->.
  - intros -> ->. rewrite bool_decide_eq_true_2 by done. done.
  - intros Hne. by rewrite bool_decide_eq_false_2.
Qed.

Lemma default_trace_mask_all_witness :
  let m := Module_new_trace "m" None false (Some 4) false None no_accessors in
  Module_set m "m.trace.all" {| opt_name := "all"; num := 1 |}
    = Ok (true, with_trace (Some 5) m) ∧
  Module_set m "m.trace.all" {| opt_name := "detail"; num := 1 |}
    = Ok (false, m).
Proof.
  intros m.
  destruct (default_trace_mask_all "m" None false 4 None no_accessors
              "m.trace.all" {| opt_name := "all"; num := 1 |})
    as (Hon & _ & _); [by exists "m", "all"|].
  destruct (default_trace_mask_all "m" None false 4 None no_accessors
              "m.trace.all" {| opt_name := "detail"; num := 1 |})
    as (_ & _ & Hother); [by exists "m", "all"|].
  split.
  - apply Hon; [reflexivity | vm_compute; discriminate].
  - apply Hother. discriminate.
Defined.

(** ** Argument lists *)

Lemma append_assoc (a b c : string) : (a +:+ b) +:+ c = a +:+ (b +:+ c).
Proof. induction a as [|x a IH]; [done|]. rewrite !append_cons. by f_equal. Qed.

Lemma append_nil_r (a : string) : a +:+ "" = a.
Proof. induction a as [|x a IH]; [done|]. rewrite append_cons. by f_equal. Qed.

(** What the loop appends for the names that are left. *)
Lemma arg_list_loop_names (names : list string) :
  ∀ (pre : list Param) (stop : Param) (junk : list Param)
    (at_start : bool) (args : string),
    param_name <$> pre = Some <$> names → param_name stop = None →
    arg_list_loop (pre ++ stop :: junk) at_start args =
      Ok (args +:+
          match names with
          | [] => ""
          | _ :: _ =>
              (if at_start then "" else ", ") +:+ String.concat ", " names
          end).
Proof.
  induction names as [|n names IH];
    intros [|p pre] stop junk at_start args Hnames Hstop;
    try discriminate; simpl.
  - rewrite Hstop. by rewrite append_nil_r.
  - injection Hnames as Hp Hnames. rewrite Hp.
    rewrite (IH pre stop junk false _ Hnames Hstop). f_equal.
    destruct names as [|n' names].
    + rewrite append_nil_r. destruct at_start;
        by rewrite ?append_assoc.
    + change (String.concat ", " (n :: n' :: names))
        with (n +:+ ", " +:+ String.concat ", " (n' :: names)).
      destruct at_start; by rewrite ?append_assoc.
Qed.

(** X6: [Command::get_arg_list] renders the names of the parameters before
    the first null name, joined by a comma and a space, between
    parentheses; what follows the null name in the array is not read; a
    null [params] gives [()]. *)
Theorem get_arg_list_join (names : list string) (pre : list Param)
    (stop : Param) (junk : list Param) :
  param_name <$> pre = Some <$> names → param_name stop = None →
  get_arg_list (Some (pre ++ stop :: junk))
    = Ok ("(" +:+ String.concat ", " names +:+ ")") ∧
  get_arg_list None = Ok "()".
Proof.
  intros Hnames Hstop. split; [|done].
  unfold get_arg_list.
  rewrite (arg_list_loop_names names pre stop junk true "(" Hnames Hstop).
  simpl. f_equal. rewrite append_assoc. f_equal.
  destruct names; [done|]. by rewrite append_assoc.
Qed.

Lemma get_arg_list_join_witness :
  get_arg_list (Some default_trace_params) = Ok "(trace)" ∧
  get_arg_list
    (Some [ Build_Param (Some "host") PT_INT no_range None None;
            Build_Param (Some "port") PT_INT no_range None None;
            Build_Param None PT_MAX no_range None None;
            Build_Param (Some "unread") PT_INT no_range None None ])
    = Ok "(host, port)".
Proof.
  split.
  - apply (get_arg_list_join ["trace"]
             [ Build_Param (Some "trace") PT_TABLE (range_table default_trace)
                 None (Some "trace config") ]
             (Build_Param None PT_MAX no_range None None) []);
      reflexivity.
  - apply (get_arg_list_join ["host"; "port"]
             [ Build_Param (Some "host") PT_INT no_range None None;
               Build_Param (Some "port") PT_INT no_range None None ]
             (Build_Param None PT_MAX no_range None None)
             [ Build_Param (Some "unread") PT_INT no_range None None ]);
      reflexivity.
Defined.

(** ** Nesting depth: more *)

Lemma with_table_level_id (m : module) :
  with_table_level (table_level m) m = m.
Proof. by destruct m. Qed.

Section Depth.
Context {D : Type} `{Hooks D}.

(** X7: whatever the hooks answer, a sequence of table boundaries changes
    nothing in the module but its nesting depth, and moves the depth by the
    number of enters minus the number of exits; nothing keeps the depth from
    going below zero when exits outnumber enters. *)
Theorem run_walk_depth (ops : list walk_op) :
  ∀ (m : module) (d : D),
    INT_MIN + Z.of_nat (length ops) ≤ table_level m →
    table_level m ≤ INT_MAX - Z.of_nat (length ops) →
    ∃ d', run_walk ops m d
            = Ok (with_table_level (table_level m + depth_change ops) m, d').
Proof.
  induction ops as [|[f i|f i] ops IH]; intros m d Hlo Hhi;
    cbn [run_walk depth_change length] in *.
  - exists d. by rewrite Z.add_0_r, with_table_level_id.
  - rewrite Nat2Z.inj_succ in Hlo, Hhi.
    destruct (verified_begin_level m d f i) as (r & d1 & Hstep); [lia|].
    destruct (IH (with_table_level (table_level m + 1) m) d1)
      as (d' & Hrun); [simpl; lia..|].
    exists d'. rewrite Hstep. simpl. rewrite Hrun.
    do 2 f_equal. unfold with_table_level. simpl. f_equal. lia.
  - rewrite Nat2Z.inj_succ in Hlo, Hhi.
    destruct (verified_end_level m d f i) as (r & d1 & Hstep); [lia|].
    destruct (IH (with_table_level (table_level m - 1) m) d1)
      as (d' & Hrun); [simpl; lia..|].
    exists d'. rewrite Hstep. simpl. rewrite Hrun.
    do 2 f_equal. unfold with_table_level. simpl. f_equal. lia.
Qed.
End Depth.

Lemma run_walk_depth_witness :
  let m := Module_new "m" None no_accessors in
  ∃ d', @run_walk nat counting_hooks
          [Enter "a" 0; Exit "a" 0; Exit "a" 0] m O
          = Ok (with_table_level (-1) m, d').
Proof.
  intros m.
  destruct (@run_walk_depth nat counting_hooks
              [Enter "a" 0; Exit "a" 0; Exit "a" 0] m O)
    as [d' Hrun]; [vm_compute; discriminate..|].
  exists d'. exact Hrun.
Defined.

(** ** Resetting: more *)

Lemma reset_module_idem (m : module) :
  reset_module (reset_module m) = reset_module m.
Proof. by destruct m. Qed.

Lemma entries_app_stop (pre : list PegInfo) (stop : PegInfo)
    (junk : list PegInfo) :
  (∀ q, q ∈ pre → is_Some (name q)) → name stop = None →
  entries (pre ++ stop :: junk) = pre.
Proof.
  intros Hpre Hstop. induction pre as [|q pre IH]; simpl.
  - by rewrite Hstop.
  - destruct (Hpre q) as [s ->]; [by left|].
    rewrite IH; [done|]. intros q' Hin. apply Hpre. by right.
Qed.

(** X8: on a well-formed module [reset_stats] returns with one recorded
    total for every descriptor before the sentinel, all of them zero, and
    with everything but the totals and their count as before, the live
    counters included; a second [reset_stats] changes nothing more. *)
Theorem reset_stats_zeroes (m : module) :
  wf m →
  ∃ m', reset_stats m = Ok m' ∧
    m' = with_counts (replicate (peg_total m) 0)
           (with_num_counts (Z.of_nat (peg_total m)) m) ∧
    (∀ i, (i < peg_total m)%nat → counts m' !! i = Some 0) ∧
    live m' = live m ∧
    reset_stats m' = Ok m'.
Proof.
  intros Hwf. exists (reset_module m).
  split; [by apply reset_stats_spec|]. split; [done|]. split.
  { intros i Hi. simpl. by apply lookup_replicate_2. }
  split; [done|].
  rewrite reset_stats_spec by (by apply wf_reset_module).
  by rewrite reset_module_idem.
Qed.

Lemma reset_stats_zeroes_witness :
  ∃ m', reset_stats (kinds_module [10; 20; 30] [5; 7; 9]) = Ok m' ∧
    counts m' = [0; 0; 0] ∧ live m' = Some [5; 7; 9] ∧
    reset_stats m' = Ok m'.
Proof.
  destruct (reset_stats_zeroes (kinds_module [10; 20; 30] [5; 7; 9]))
    as (m' & Hrun & Hm' & _ & Hlive & Hagain); [solve_wf|].
  exists m'. split; [exact Hrun|]. split; [by rewrite Hm'|].
  split; [exact Hlive | exact Hagain].
Defined.

(** X9: the descriptor array is read up to its first null name and no
    further: [reset_stats] counts the entries before it, whatever follows
    it, and [get_global_count] does not find a name that occurs only after
    it. *)
Theorem descriptors_end_at_null_name (m : module) (pre : list PegInfo)
    (stop : PegInfo) (junk : list PegInfo) (nm : string) :
  wf m → pegs m = Some (pre ++ stop :: junk) →
  (∀ q, q ∈ pre → is_Some (name q)) → name stop = None →
  ∃ m', reset_stats m = Ok m' ∧
    num_counts m' = Z.of_nat (length pre) ∧
    length (counts m') = length pre ∧
    ((∀ q, q ∈ pre → name q ≠ Some nm) →
       get_global_count true m' nm = Abort ∧
       get_global_count false m' nm = Ok 0).
Proof.
  intros Hwf Hpegs Hpre Hstop.
  pose proof (entries_app_stop pre stop junk Hpre Hstop) as Hentries.
  assert (peg_total m = length pre) as Htotal
    by (unfold peg_total; by rewrite Hpegs, Hentries).
  destruct (wf_pegs m Hwf _ Hpegs) as [Hterm Hmax].
  exists (reset_module m). split; [by apply reset_stats_spec|].
  simpl. rewrite length_replicate, Htotal. split; [done|]. split; [done|].
  intros Habsent. unfold get_global_count. simpl. rewrite Hpegs.
  assert (INT_MAX < 2 ^ 32) as Hint by (vm_compute; reflexivity).
  rewrite find_peg_absent; [done | done | by rewrite Hentries | lia | lia].
Qed.

Lemma descriptors_end_at_null_name_witness :
  let late := {| type := SUM; name := Some "late"; help := None |} in
  let m := Module_new "m" None
             {| get_pegs := Some (simple_pegs ++ [late]);
                get_counts := Some [5; 6]; global_stats := false |} in
  ∃ m', reset_stats m = Ok m' ∧ num_counts m' = 1 ∧
    get_global_count false m' "late" = Ok 0.
Proof.
  intros late m.
  destruct (descriptors_end_at_null_name m
              [ {| type := SUM; name := Some "packets";
                   help := Some "total packets" |} ]
              {| type := END; name := None; help := None |} [late] "late")
    as (m' & Hrun & Hn & _ & Habsent);
    [| reflexivity | | reflexivity |].
  { split; simpl.
    - intros ? [= <-]. split; [|vm_compute; discriminate].
      exists {| type := END; name := None; help := None |}.
      split; [|reflexivity]. apply list_elem_of_In. simpl. auto.
    - intros ? [= <-]. split; [by eexists | vm_compute; lia].
    - left. split; reflexivity. }
  { intros q Hin. apply list_elem_of_singleton in Hin as ->. by eexists. }
  exists m'. split; [exact Hrun|]. split; [exact Hn|].
  apply Habsent. intros q Hin.
  apply list_elem_of_singleton in Hin as ->. simpl. discriminate.
Defined.

(** ** Aggregation: more *)

(** The loop over the kinds leaves the indices from [n] on as they were. *)
Lemma sum_peg_loop_rest (acc : bool) (m : module) (infos : list PegInfo)
    (p : list PegCount) (n : nat) :
  pegs m = Some infos → live m = Some p →
  (n ≤ length (entries infos))%nat → (n ≤ length p)%nat →
  (n ≤ length (counts m))%nat →
  ∃ c' p',
    for_upto n 0 (sum_peg acc) m
      = Ok (with_live (Some p') (with_counts c' m)) ∧
    ∀ k, (n ≤ k)%nat → c' !! k = counts m !! k ∧ p' !! k = p !! k.
Proof.
  intros Hpegs Hlive Hn_infos Hn_p Hn_c.
  destruct (for_upto_inv
    (λ j mj, ∃ c' p',
       mj = with_live (Some p') (with_counts c' m) ∧
       ∀ k, (j ≤ k)%nat → c' !! k = counts m !! k ∧ p' !! k = p !! k)
    (sum_peg acc) n O m)
    as (m' & Hrun & c' & p' & -> & Hrest).
  - exists (counts m), p. split; [destruct m; simpl in *; by subst | done].
  - intros j mj Hj (c' & p' & -> & Hrest).
    destruct (lookup_lt_is_Some_2 (entries infos) j) as [q Hq]; [lia|].
    destruct (lookup_lt_is_Some_2 p j) as [v Hv]; [lia|].
    destruct (lookup_lt_is_Some_2 (counts m) j) as [t Ht]; [lia|].
    destruct (Hrest j) as [Hcj Hpj]; [lia|].
    rewrite (sum_peg_step acc j _ infos p' q v t); simpl;
      [| done | by apply entries_lookup | done | congruence | congruence].
    eexists. split; [done|].
    exists (<[j:=agg_total acc (type q) t v]> c'),
      (<[j:=agg_live (type q) v]> p').
    split; [done|].
    intros k Hk. rewrite !list_lookup_insert_ne by lia. apply Hrest. lia.
  - exists c', p'. by rewrite Hrun.
Qed.

Lemma sized_frame (m : module) :
  wf m →
  sized m = with_counts (counts (sized m))
              (with_num_counts (Z.of_nat (peg_total m)) m).
Proof.
  intros Hwf. unfold sized. destruct (num_counts m <? 0) eqn:Hneg; [done|].
  apply Z.ltb_ge in Hneg.
  destruct (wf_counts m Hwf) as [[Hn _]|[Hn _]]; [lia|].
  rewrite <- Hn. by destruct m.
Qed.

(** [sum_stats] on a module that is not global, with the indices past the
    descriptors. *)
Lemma sum_stats_kinds_rest (debug acc : bool) (m : module)
    (infos : list PegInfo) (p : list PegCount) :
  wf m → global m = false → pegs m = Some infos → live m = Some p →
  ∃ c' p',
    sum_stats debug acc m
      = Ok (with_live (Some p') (with_counts c' (sized m))) ∧
    length c' = peg_total m ∧ length p' = length p ∧
    (∀ k q v, entries infos !! k = Some q → p !! k = Some v →
       c' !! k = Some (agg_total acc (type q) (recorded m k) v) ∧
       p' !! k = Some (agg_live (type q) v)) ∧
    (∀ k, (peg_total m ≤ k)%nat → p' !! k = p !! k).
Proof.
  intros Hwf Hglobal Hpegs Hlive.
  destruct (sum_stats_kinds debug acc m infos p)
    as (c' & p' & Hrun & Hc' & Hp' & Hagg); [done..|].
  exists c', p'. split; [done|]. split; [done|]. split; [done|].
  split; [done|].
  destruct (sized_spec m Hwf) as (Hwf' & Hn & Hc & Hpegs' & Hlive' & Hg').
  destruct (wf_live m Hwf p Hlive) as [_ Hp].
  assert (peg_total m = length (entries infos)) as Htotal
    by (unfold peg_total; by rewrite Hpegs).
  destruct (sum_peg_loop_rest acc (sized m) infos p (peg_total m))
    as (c2 & p2 & Hrun2 & Hrest); [congruence | congruence | lia..|].
  rewrite sum_stats_sized in Hrun by done.
  rewrite Hlive', Hlive, Hpegs', Hpegs, Hg', Hglobal, Hn, Nat2Z.id in Hrun.
  rewrite bool_decide_eq_true_2 in Hrun by eauto. simpl in Hrun.
  rewrite Hrun2 in Hrun.
  apply (f_equal (λ r, match r with Ok x => live x | _ => None end)) in Hrun.
  simpl in Hrun. injection Hrun as <-.
  intros k Hk. by apply Hrest.
Qed.

(** X10: on a well-formed module [sum_stats] returns, in a debug build as
    in a release build; it changes nothing but the recorded totals, their
    count and the live counters, keeps one total for every descriptor and
    the live storage at its length, and leaves the live values past the
    descriptors as they were. *)
Theorem sum_stats_frame (debug acc : bool) (m : module) :
  wf m →
  ∃ m', sum_stats debug acc m = Ok m' ∧ wf m' ∧
    m' = with_live (live m')
           (with_counts (counts m')
              (with_num_counts (Z.of_nat (peg_total m)) m)) ∧
    length (counts m') = peg_total m ∧
    (∀ p, live m = Some p →
       ∃ p', live m' = Some p' ∧ length p' = length p ∧
         ∀ k, (peg_total m ≤ k)%nat → p' !! k = p !! k) ∧
    (live m = None → live m' = None).
Proof.
  intros Hwf.
  destruct (sum_stats_ok debug acc m Hwf)
    as (m' & Hrun & Hwf' & Hpegs' & Hglobal' & Hn' & Hnone).
  destruct (sized_spec m Hwf) as (Hwfs & Hns & Hcs & Hpegss & Hlives & Hgs).
  pose proof (sized_frame m Hwf) as Hframe.
  exists m'. split; [done|]. split; [done|].
  destruct (live m) as [p|] eqn:Hlive.
  - destruct (wf_live m Hwf p Hlive) as [[infos Hpegs] Hp].
    destruct (global m) eqn:Hglobal.
    + rewrite sum_stats_sized in Hrun by done.
      rewrite Hlives, Hpegss, Hpegs, Hgs, Hns, Nat2Z.id in Hrun.
      rewrite bool_decide_eq_true_2 in Hrun by eauto. simpl in Hrun.
      destruct (sum_global_loop (sized m) p (peg_total m))
        as (c' & Hrun2 & Hc'); [congruence | lia..|].
      rewrite Hrun2 in Hrun. injection Hrun as <-. simpl.
      split.
      { rewrite Hframe at 1. rewrite Hlives. clear -Hlive.
        destruct m; simpl in *; by subst. }
      split; [lia|]. split; [|done].
      intros p0 [= <-]. exists p. by rewrite Hlives.
    + destruct (sum_stats_kinds_rest debug acc m infos p)
        as (c' & p' & Hrun2 & Hc' & Hp' & _ & Hrest); [done..|].
      rewrite Hrun2 in Hrun. injection Hrun as <-. simpl.
      split; [by rewrite Hframe at 1|].
      split; [done|]. split; [|done].
      intros p0 [= <-]. by exists p'.
  - rewrite sum_stats_sized, Hlives in Hrun by done.
    injection Hrun as <-.
    split.
    { rewrite Hframe at 1. rewrite Hlives. clear -Hlive.
      destruct m; simpl in *; by subst. }
    split; [done|]. split; [done|]. by rewrite Hlives.
Qed.

Lemma sum_stats_frame_witness :
  ∃ m', sum_stats true true (kinds_module [10; 20; 30] [5; 7; 9; 11])
          = Ok m' ∧
    length (counts m') = 3%nat ∧ live m' = Some [0; 7; 9; 11] ∧
    table_level m' = 0 ∧ trace_mask m' = None.
Proof.
  destruct (sum_stats_frame true true
              (kinds_module [10; 20; 30] [5; 7; 9; 11]))
    as (m' & Hrun & _ & Hframe & Hlen & _); [solve_wf|].
  exists m'. split; [exact Hrun|]. split; [exact Hlen|].
  split; [|by rewrite Hframe].
  vm_compute in Hrun. by injection Hrun as <-.
Defined.

(** The loop of a global module copies the live values. *)
Lemma sum_global_loop_copy (m : module) (p : list PegCount) :
  live m = Some p → (length (counts m) ≤ length p)%nat →
  for_upto (length (counts m)) 0 sum_global m
    = Ok (with_counts (take (length (counts m)) p) m).
Proof.
  intros Hlive Hlen.
  destruct (for_upto_inv
    (λ (j : nat) mj, ∃ c', mj = with_counts c' m ∧
       length c' = length (counts m) ∧
       ∀ k, (k < j)%nat → c' !! k = p !! k)
    sum_global (length (counts m)) O m) as (m' & Hrun & c' & -> & Hc' & Hcopy).
  - exists (counts m). rewrite with_counts_id. split; [done|].
    split; [done|]. intros k Hk. lia.
  - intros j mj Hj (c' & -> & Hc' & Hcopy).
    destruct (lookup_lt_is_Some_2 p j) as [v Hv]; [lia|].
    unfold sum_global, live_at, set_peg_count. simpl. rewrite Hlive.
    rewrite (vector_get_Some _ _ _ Hv). simpl.
    rewrite vector_set_lt by lia. simpl.
    eexists. split; [done|]. exists (<[j:=v]> c').
    split; [done|]. rewrite length_insert. split; [done|].
    intros k Hk. destruct (decide (k = j)) as [->|Hne].
    + rewrite list_lookup_insert_eq by lia. done.
    + rewrite list_lookup_insert_ne by done. apply Hcopy. lia.
  - rewrite Hrun. do 2 f_equal. apply list_eq. intros k.
    destruct (decide (k < length (counts m))%nat) as [Hk|Hk].
    + rewrite lookup_take_lt by done. by apply Hcopy.
    + rewrite lookup_take_ge by lia. apply lookup_ge_None. lia.
Qed.

(** X11: on a global module [sum_stats] copies the live value of every
    descriptor to its recorded total, whatever the kind and whatever
    [accumulate_now_stats], and leaves the live counters as they are; a
    second call changes nothing more. *)
Theorem sum_stats_global_copies (debug acc : bool) (m : module)
    (p : list PegCount) :
  wf m → global m = true → live m = Some p →
  ∃ m', sum_stats debug acc m = Ok m' ∧
    counts m' = take (peg_total m) p ∧
    live m' = Some p ∧
    ∀ acc', sum_stats debug acc' m' = Ok m'.
Proof.
  intros Hwf Hglobal Hlive.
  assert (∀ m0 acc0, wf m0 → global m0 = true → live m0 = Some p →
            sum_stats debug acc0 m0
              = Ok (with_counts (take (peg_total m0) p) (sized m0)))
    as Hcopy.
  { intros m0 acc0 Hwf0 Hglobal0 Hlive0.
    destruct (sized_spec m0 Hwf0) as (_ & Hn & Hc & Hpegs' & Hlive' & Hg').
    destruct (wf_live m0 Hwf0 p Hlive0) as [[infos Hpegs] Hp].
    rewrite sum_stats_sized by done.
    rewrite Hlive', Hlive0, Hpegs', Hpegs, Hg', Hglobal0, Hn, Nat2Z.id.
    rewrite bool_decide_eq_true_2 by eauto. simpl.
    rewrite <- Hc. apply sum_global_loop_copy; [congruence | lia]. }
  destruct (sum_stats_ok debug acc m Hwf)
    as (m' & Hrun & Hwf' & Hpegs' & Hglobal' & Hn' & _).
  pose proof (Hcopy m acc Hwf Hglobal Hlive) as Hrun'.
  rewrite Hrun in Hrun'. injection Hrun' as Hm'.
  destruct (sized_spec m Hwf) as (_ & _ & _ & _ & Hlives & _).
  exists m'. split; [done|].
  split; [by rewrite Hm'|]. split; [rewrite Hm'; simpl; congruence|].
  intros acc'. rewrite Hcopy; [|done|congruence|rewrite Hm'; simpl; congruence].
  f_equal. rewrite (peg_total_static m m') by done.
  unfold sized.
  assert ((num_counts m' <? 0) = false) as -> by lia.
  rewrite Hm'. done.
Qed.

Lemma sum_stats_global_copies_witness :
  let m := Module_new "global" None
             {| get_pegs := Some kinds_pegs; get_counts := Some [5; 7; 9];
                global_stats := true |} in
  ∃ m', sum_stats true false m = Ok m' ∧ counts m' = [5; 7; 9] ∧
    live m' = Some [5; 7; 9] ∧ sum_stats true true m' = Ok m'.
Proof.
  intros m.
  destruct (sum_stats_global_copies true false m [5; 7; 9])
    as (m' & Hrun & Hcounts & Hlive & Hagain);
    [solve_wf | reflexivity | reflexivity |].
  exists m'. split; [exact Hrun|]. split; [exact Hcounts|].
  split; [exact Hlive | apply Hagain].
Defined.

(** X12: a descriptor of kind END that has a name takes part in the count
    and is skipped by [sum_stats]: its recorded total and its live value
    stay as they are. *)
Theorem sum_stats_skips_end_kind (debug acc : bool) (m : module) (i : nat)
    (v : PegCount) :
  wf m → global m = false →
  kind_at m i = Some END → live_value m i = Some v →
  ∃ m', sum_stats debug acc m = Ok m' ∧
    recorded m' i = recorded m i ∧ live_value m' i = Some v.
Proof.
  intros Hwf Hglobal Hkind Hv.
  destruct (sum_stats_at debug acc m i END v)
    as (m' & Hrun & _ & _ & _ & Hrec & Hlive); [done..|].
  by exists m'.
Qed.

Lemma sum_stats_skips_end_kind_witness :
  let m := with_counts [3; 4]
             (with_num_counts 2
                (Module_new "m" None
                   {| get_pegs :=
                        Some [ {| type := END; name := Some "odd";
                                  help := None |};
                               {| type := SUM; name := Some "packets";
                                  help := None |};
                               {| type := END; name := None; help := None |} ];
                      get_counts := Some [8; 9]; global_stats := false |})) in
  ∃ m', sum_stats true true m = Ok m' ∧
    recorded m' 0 = 3 ∧ live_value m' 0 = Some 8.
Proof.
  intros m.
  destruct (sum_stats_skips_end_kind true true m 0 8)
    as (m' & Hrun & Hrec & Hlive);
    [| reflexivity | reflexivity | reflexivity |].
  { split; simpl.
    - intros ? [= <-]. split; [|vm_compute; discriminate].
      exists {| type := END; name := None; help := None |}.
      split; [|reflexivity]. apply list_elem_of_In. simpl. auto.
    - intros ? [= <-]. split; [by eexists | vm_compute; lia].
    - right. split; reflexivity. }
  exists m'. split; [exact Hrun|]. split; [exact Hrec | exact Hlive].
Defined.

(** X13: a module that hands out live counters but no descriptors fails
    the assertion of [sum_stats] in a debug build; a release build returns
    with the count at zero and nothing else changed. *)
Theorem sum_stats_counters_without_pegs (acc : bool) (m : module)
    (p : list PegCount) :
  pegs m = None → live m = Some p → num_counts m ≤ 0 →
  sum_stats true acc m = Abort ∧
  sum_stats false acc m = Ok (with_num_counts 0 m).
Proof.
  intros Hpegs Hlive Hn. unfold sum_stats, reset_stats, resolves_count.
  destruct (num_counts m <? 0) eqn:Hneg.
  - assert ((num_counts m <=? 0) = true) as -> by lia.
    simpl. rewrite Hpegs. simpl. rewrite Hlive, Hpegs. simpl.
    split; [done|]. by destruct (global m).
  - assert (num_counts m = 0) as Hzero by lia.
    simpl. rewrite Hlive, Hpegs, Hzero. simpl.
    split; [done|].
    destruct (global m); f_equal; destruct m; simpl in *; by subst.
Qed.

Lemma sum_stats_counters_without_pegs_witness :
  let m := Module_new "m" None
             {| get_pegs := None; get_counts := Some [1];
                global_stats := false |} in
  sum_stats true false m = Abort ∧
  sum_stats false false m = Ok (with_num_counts 0 m).
Proof.
  intros m.
  apply (sum_stats_counters_without_pegs false m [1]);
    [reflexivity | reflexivity | vm_compute; discriminate].
Defined.

(** ** Rounds of aggregation *)

Lemma kind_at_pegs (m : module) (i : nat) (k : CountType) :
  kind_at m i = Some k → is_Some (pegs m).
Proof. unfold kind_at. destruct (pegs m); [eauto | done]. Qed.

(** One round: the live counters are written, then [sum_stats] runs. *)
Lemma round_step (debug acc : bool) (m : module) (i : nat) (k : CountType)
    (p : list PegCount) :
  wf m → global m = false → kind_at m i = Some k →
  (peg_total m ≤ length p)%nat →
  ∃ m', run_stats debug [Write p; Sum acc] m = Ok m' ∧ wf m' ∧
    pegs m' = pegs m ∧ global m' = global m ∧
    recorded m' i = agg_total acc k (recorded m i) (default 0 (p !! i)) ∧
    live_value m' i = Some (agg_live k (default 0 (p !! i))).
Proof.
  intros Hwf Hglobal Hkind Hlen.
  pose proof (kind_at_lt m i k Hkind) as Hi.
  destruct (lookup_lt_is_Some_2 p i) as [v Hv]; [lia|].
  assert (wf (with_live (Some p) m)) as Hwf1
    by (apply wf_write; [done | by eapply kind_at_pegs | done]).
  destruct (sum_stats_at debug acc (with_live (Some p) m) i k v)
    as (m' & Hrun & Hwf' & Hpegs & Hglobal' & Hrec & Hlive); [done..| |].
  { unfold live_value. simpl. done. }
  exists m'. simpl. rewrite Hrun. simpl. rewrite Hv. simpl. done.
Qed.

Lemma flush_rounds_cons (acc : bool) (p : list PegCount)
    (ps : list (list PegCount)) :
  flush_rounds acc (p :: ps) = [Write p; Sum acc] ++ flush_rounds acc ps.
Proof. reflexivity. Qed.

(** X14: over rounds in which the live counters are written and
    [sum_stats] runs, the recorded total of a SUM counter is the total
    before plus every value the live counter had, modulo 2^64: every value
    is counted once. *)
Theorem sum_kind_accumulates (debug acc : bool) (i : nat)
    (ps : list (list PegCount)) :
  ∀ m, wf m → global m = false → kind_at m i = Some SUM →
    (∀ p, p ∈ ps → (peg_total m ≤ length p)%nat) →
    0 ≤ recorded m i < PEG_MODULUS →
    ∃ m', run_stats debug (flush_rounds acc ps) m = Ok m' ∧
      recorded m' i
        = (recorded m i + sum_list (live_column i ps)) mod PEG_MODULUS.
Proof.
  induction ps as [|p ps IH]; intros m Hwf Hglobal Hkind Hfit Hrange.
  - exists m. split; [done|]. simpl. rewrite Z.add_0_r.
    symmetry. by apply Z.mod_small.
  - destruct (round_step debug acc m i SUM p)
      as (m1 & Hrun1 & Hwf1 & Hpegs1 & Hglobal1 & Hrec1 & _); [done..| |].
    { apply Hfit. by left. }
    simpl in Hrec1.
    destruct (IH m1) as (m' & Hrun & Hrec);
      [done | congruence | by rewrite (kind_at_static m m1) | | |].
    { intros p' Hin. rewrite (peg_total_static m m1) by done.
      apply Hfit. by right. }
    { rewrite Hrec1. unfold peg_add. apply Z.mod_pos_bound.
      by vm_compute. }
    exists m'. rewrite flush_rounds_cons, run_stats_app, Hrun1. simpl.
    split; [done|]. rewrite Hrec, Hrec1. unfold peg_add. simpl.
    rewrite Z.add_mod_idemp_l by (by vm_compute). f_equal. lia.
Qed.

Lemma sum_kind_accumulates_witness :
  ∃ m', run_stats true
          (flush_rounds false [[5; 0; 0]; [2; 0; 0]; [4; 0; 0]])
          (kinds_module [10; 20; 30] [0; 0; 0]) = Ok m' ∧
    recorded m' 0 = 21.
Proof.
  destruct (sum_kind_accumulates true false 0
              [[5; 0; 0]; [2; 0; 0]; [4; 0; 0]]
              (kinds_module [10; 20; 30] [0; 0; 0]))
    as (m' & Hrun & Hrec);
    [solve_wf | reflexivity | reflexivity | | vm_compute; split; [discriminate | reflexivity] |].
  { intros p Hin. rewrite !elem_of_cons, elem_of_nil in Hin.
    destruct Hin as [->|[->|[->|[]]]]; vm_compute; lia. }
  exists m'. split; [exact Hrun | exact Hrec].
Defined.

(** X15: over the same rounds the recorded total of a MAX counter is the
    largest of the total before and every value the live counter had. *)
Theorem max_kind_is_largest (debug acc : bool) (i : nat)
    (ps : list (list PegCount)) :
  ∀ m, wf m → global m = false → kind_at m i = Some MAX →
    (∀ p, p ∈ ps → (peg_total m ≤ length p)%nat) →
    ∃ m', run_stats debug (flush_rounds acc ps) m = Ok m' ∧
      recorded m' i = max_list (recorded m i) (live_column i ps).
Proof.
  induction ps as [|p ps IH]; intros m Hwf Hglobal Hkind Hfit.
  - by exists m.
  - destruct (round_step debug acc m i MAX p)
      as (m1 & Hrun1 & Hwf1 & Hpegs1 & Hglobal1 & Hrec1 & _); [done..| |].
    { apply Hfit. by left. }
    simpl in Hrec1.
    destruct (IH m1) as (m' & Hrun & Hrec);
      [done | congruence | by rewrite (kind_at_static m m1) | |].
    { intros p' Hin. rewrite (peg_total_static m m1) by done.
      apply Hfit. by right. }
    exists m'. rewrite flush_rounds_cons, run_stats_app, Hrun1. simpl.
    split; [done|]. by rewrite Hrec, Hrec1.
Qed.

Lemma max_kind_is_largest_witness :
  ∃ m', run_stats true
          (flush_rounds false [[0; 0; 12]; [0; 0; 44]; [0; 0; 7]])
          (kinds_module [10; 20; 30] [0; 0; 0]) = Ok m' ∧
    recorded m' 2 = 44.
Proof.
  destruct (max_kind_is_largest true false 2
              [[0; 0; 12]; [0; 0; 44]; [0; 0; 7]]
              (kinds_module [10; 20; 30] [0; 0; 0]))
    as (m' & Hrun & Hrec);
    [solve_wf | reflexivity | reflexivity | |].
  { intros p Hin. rewrite !elem_of_cons, elem_of_nil in Hin.
    destruct Hin as [->|[->|[->|[]]]]; vm_compute; lia. }
  exists m'. split; [exact Hrun | exact Hrec].
Defined.

(** X16: the live value of a NOW counter is not reset, so every
    [sum_stats(true)] adds it again: [n] calls in a row, with no write in
    between, add [n] times the live value, modulo 2^64. *)
Theorem now_kind_counts_every_call (debug : bool) (i : nat) (v : PegCount)
    (n : nat) :
  ∀ m, wf m → global m = false →
    kind_at m i = Some NOW → live_value m i = Some v →
    0 ≤ recorded m i < PEG_MODULUS →
    ∃ m', run_stats debug (replicate n (Sum true)) m = Ok m' ∧
      recorded m' i = (recorded m i + Z.of_nat n * v) mod PEG_MODULUS ∧
      live_value m' i = Some v.
Proof.
  induction n as [|n IH]; intros m Hwf Hglobal Hkind Hv Hrange.
  - exists m. split; [done|]. split; [|done].
    rewrite Z.mul_0_l, Z.add_0_r. symmetry. by apply Z.mod_small.
  - destruct (sum_stats_at debug true m i NOW v)
      as (m1 & Hrun1 & Hwf1 & Hpegs1 & Hglobal1 & Hrec1 & Hlive1); [done..|].
    simpl in Hrec1, Hlive1.
    destruct (IH m1) as (m' & Hrun & Hrec & Hlive);
      [done | congruence | by rewrite (kind_at_static m m1) | done | |].
    { rewrite Hrec1. unfold peg_add. apply Z.mod_pos_bound. by vm_compute. }
    exists m'. simpl. rewrite Hrun1. simpl.
    split; [done|]. split; [|done].
    rewrite Hrec, Hrec1. unfold peg_add.
    rewrite Z.add_mod_idemp_l by (by vm_compute). f_equal. lia.
Qed.

Lemma now_kind_counts_every_call_witness :
  ∃ m', run_stats true [Sum true; Sum true; Sum true]
          (kinds_module [10; 20; 30] [5; 7; 9]) = Ok m' ∧
    recorded m' 1 = 41 ∧ live_value m' 1 = Some 7.
Proof.
  destruct (now_kind_counts_every_call true 1 7 3
              (kinds_module [10; 20; 30] [5; 7; 9]))
    as (m' & Hrun & Hrec & Hlive);
    [solve_wf | reflexivity | reflexivity | reflexivity
    | vm_compute; split; [discriminate | reflexivity] |].
  exists m'. split; [exact Hrun|]. split; [exact Hrec | exact Hlive].
Defined.

(** ** Lookup by name: more *)

Lemma get_global_count_found (debug : bool) (m : module)
    (infos : list PegInfo) (nm : string) (i : nat) (q : PegInfo)
    (c : PegCount) :
  wf m → pegs m = Some infos →
  entries infos !! i = Some q → name q = Some nm →
  (∀ j q', (j < i)%nat → entries infos !! j = Some q' →
     name q' ≠ Some nm) →
  counts m !! i = Some c →
  get_global_count debug m nm = Ok c.
Proof.
  intros Hwf Hpegs Hq Hname Hfirst Hc.
  destruct (wf_pegs m Hwf infos Hpegs) as [_ Hmax].
  assert (INT_MAX < 2 ^ 32) as Hint by (vm_compute; reflexivity).
  pose proof (lookup_lt_Some _ _ _ Hq) as Hi.
  unfold get_global_count. rewrite Hpegs.
  rewrite (find_peg_found infos nm 0 i q); [|done..|lia|lia].
  simpl. by apply vector_get_Some.
Qed.

(** X17: [get_global_count] reads the recorded totals, and a new module has
    none: for a name of the descriptor sequence the read is out of range
    before the first [reset_stats] or [sum_stats], and gives 0 right after
    [reset_stats]. *)
Theorem get_global_count_needs_sizing (debug : bool) (m : module)
    (infos : list PegInfo) (nm : string) (i : nat) (q : PegInfo) :
  wf m → pegs m = Some infos →
  entries infos !! i = Some q → name q = Some nm →
  (∀ j q', (j < i)%nat → entries infos !! j = Some q' →
     name q' ≠ Some nm) →
  (num_counts m = -1 → get_global_count debug m nm = Undefined) ∧
  (∃ m', reset_stats m = Ok m' ∧ get_global_count debug m' nm = Ok 0).
Proof.
  intros Hwf Hpegs Hq Hname Hfirst.
  pose proof (lookup_lt_Some _ _ _ Hq) as Hi.
  split.
  - intros Hnew.
    destruct (wf_pegs m Hwf infos Hpegs) as [_ Hmax].
    assert (INT_MAX < 2 ^ 32) as Hint by (vm_compute; reflexivity).
    unfold get_global_count. rewrite Hpegs.
    rewrite (find_peg_found infos nm 0 i q); [|done..|lia|lia].
    simpl. unfold vector_get.
    by rewrite (wf_unsized_counts m Hwf) by lia.
  - exists (reset_module m). split; [by apply reset_stats_spec|].
    apply (get_global_count_found debug _ infos nm i q);
      [by apply wf_reset_module | done..|].
    simpl. apply lookup_replicate_2. unfold peg_total. by rewrite Hpegs.
Qed.

Lemma get_global_count_needs_sizing_witness :
  let m := Module_new "stream" None
             {| get_pegs := Some simple_pegs; get_counts := Some [5];
                global_stats := false |} in
  get_global_count true m "packets" = Undefined ∧
  ∃ m', reset_stats m = Ok m' ∧ get_global_count true m' "packets" = Ok 0.
Proof.
  intros m.
  destruct (get_global_count_needs_sizing true m simple_pegs "packets" O
              {| type := SUM; name := Some "packets";
                 help := Some "total packets" |})
    as [Hnew Hreset];
    [solve_wf | reflexivity | reflexivity | reflexivity
    | intros j q' Hj; lia |].
  split; [by apply Hnew | exact Hreset].
Defined.

(** X18: after [sum_stats] on a module that is not global,
    [get_global_count] of the name of a SUM counter returns the total
    before plus the live value, modulo 2^64; on a new module that is the
    live value. *)
Theorem get_global_count_after_sum (debug acc : bool) (m : module)
    (infos : list PegInfo) (nm : string) (i : nat) (q : PegInfo)
    (v : PegCount) :
  wf m → global m = false → pegs m = Some infos →
  entries infos !! i = Some q → name q = Some nm → type q = SUM →
  (∀ j q', (j < i)%nat → entries infos !! j = Some q' →
     name q' ≠ Some nm) →
  live_value m i = Some v →
  ∃ m', sum_stats debug acc m = Ok m' ∧
    get_global_count debug m' nm = Ok (peg_add (recorded m i) v) ∧
    (num_counts m = -1 → 0 ≤ v < PEG_MODULUS →
       get_global_count debug m' nm = Ok v).
Proof.
  intros Hwf Hglobal Hpegs Hq Hname Htype Hfirst Hv.
  assert (kind_at m i = Some SUM) as Hkind.
  { unfold kind_at. rewrite Hpegs. simpl. by rewrite Hq, <- Htype. }
  destruct (sum_stats_at debug acc m i SUM v)
    as (m' & Hrun & Hwf' & Hpegs' & _ & Hrec & _); [done..|].
  simpl in Hrec.
  assert (counts m' !! i = Some (recorded m' i)) as Hc.
  { destruct (wf_counts m' Hwf') as [[Hn _]|[_ Hlen]].
    - destruct (sum_stats_ok debug acc m Hwf) as (m2 & Hrun2 & _ & _ & _ & Hn2 & _).
      rewrite Hrun in Hrun2. injection Hrun2 as <-. lia.
    - unfold recorded.
      destruct (lookup_lt_is_Some_2 (counts m') i) as [c ->]; [|done].
      rewrite Hlen, (peg_total_static m m') by done.
      by eapply kind_at_lt. }
  assert (get_global_count debug m' nm = Ok (peg_add (recorded m i) v))
    as Hget.
  { rewrite <- Hrec.
    apply (get_global_count_found debug m' infos nm i q); [done | congruence | done..]. }
  exists m'. split; [done|]. split; [done|].
  intros Hnew Hrange. rewrite Hget. f_equal.
  unfold recorded. rewrite (wf_unsized_counts m Hwf) by lia. simpl.
  unfold peg_add. rewrite Z.add_0_l. by apply Z.mod_small.
Qed.

Lemma get_global_count_after_sum_witness :
  let m := Module_new "stream" None
             {| get_pegs := Some simple_pegs; get_counts := Some [5];
                global_stats := false |} in
  ∃ m', sum_stats true false m = Ok m' ∧
    get_global_count true m' "packets" = Ok 5.
Proof.
  intros m.
  destruct (get_global_count_after_sum true false m simple_pegs "packets" O
              {| type := SUM; name := Some "packets";
                 help := Some "total packets" |} 5)
    as (m' & Hrun & _ & Hnew);
    [solve_wf | reflexivity | reflexivity | reflexivity | reflexivity
    | reflexivity | intros j q' Hj; lia | reflexivity |].
  exists m'. split; [exact Hrun|].
  apply Hnew; [reflexivity | vm_compute; split; [discriminate | reflexivity]].
Defined.

(** ** Aggregating twice *)

Lemma agg_false_twice (k : CountType) (r v : PegCount) :
  agg_total false k (agg_total false k r v) (agg_live k v)
    = agg_total false k r v ∧
  agg_live k (agg_live k v) = agg_live k v.
Proof.
  destruct k; simpl; split; try done.
  - apply peg_add_0_r.
  - lia.
Qed.

Lemma sized_resolved (m : module) : 0 ≤ num_counts m → sized m = m.
Proof.
  intros Hn. unfold sized.
  by assert ((num_counts m <? 0) = false) as -> by lia.
Qed.

(** X19: [sum_stats(false)] is idempotent on a module that is not global:
    run again with no write in between, it returns the module it was
    given. *)
Theorem sum_stats_false_idempotent (debug : bool) (m : module) :
  wf m → global m = false →
  ∃ m', sum_stats debug false m = Ok m' ∧ sum_stats debug false m' = Ok m'.
Proof.
  intros Hwf Hglobal.
  destruct (sum_stats_ok debug false m Hwf)
    as (m' & Hrun & Hwf' & Hpegs' & Hglobal' & Hn' & _).
  exists m'. split; [done|].
  assert (sized m' = m') as Hsized by (apply sized_resolved; lia).
  destruct (live m) as [p|] eqn:Hlive.
  - destruct (wf_live m Hwf p Hlive) as [[infos Hpegs] Hp].
    destruct (sum_stats_kinds_rest debug false m infos p)
      as (c' & p' & Hrun1 & Hc' & Hp' & Hagg & Hrest); [done..|].
    rewrite Hrun in Hrun1. injection Hrun1 as Hm'.
    assert (live m' = Some p') as Hlive' by (by rewrite Hm').
    assert (counts m' = c') as Hcounts' by (by rewrite Hm').
    destruct (sum_stats_kinds_rest debug false m' infos p')
      as (c2 & p2 & Hrun2 & Hc2 & Hp2 & Hagg2 & Hrest2);
      [done | congruence | congruence | done |].
    rewrite Hrun2, Hsized. f_equal.
    rewrite (peg_total_static m m') in Hc2, Hrest2 by done.
    assert (peg_total m = length (entries infos)) as Htotal
      by (unfold peg_total; by rewrite Hpegs).
    assert (c2 = c') as ->.
    { apply list_eq. intros k.
      destruct (decide (k < peg_total m)%nat) as [Hk|Hk].
      - destruct (lookup_lt_is_Some_2 (entries infos) k) as [q Hq]; [lia|].
        destruct (lookup_lt_is_Some_2 p k) as [v Hv]; [lia|].
        destruct (Hagg k q v Hq Hv) as [Hck Hpk].
        destruct (Hagg2 k q _ Hq Hpk) as [Hck2 _].
        rewrite Hck2, Hck. f_equal.
        unfold recorded at 1. rewrite Hcounts', Hck. simpl.
        apply agg_false_twice.
      - rewrite !(proj2 (lookup_ge_None _ _)); [done | lia | lia]. }
    assert (p2 = p') as ->.
    { apply list_eq. intros k.
      destruct (decide (k < peg_total m)%nat) as [Hk|Hk].
      - destruct (lookup_lt_is_Some_2 (entries infos) k) as [q Hq]; [lia|].
        destruct (lookup_lt_is_Some_2 p k) as [v Hv]; [lia|].
        destruct (Hagg k q v Hq Hv) as [Hck Hpk].
        destruct (Hagg2 k q _ Hq Hpk) as [_ Hpk2].
        rewrite Hpk2, Hpk. f_equal. apply agg_false_twice; exact 0.
      - apply Hrest2. lia. }
    rewrite Hm'. done.
  - destruct (sized_spec m Hwf) as (_ & _ & _ & _ & Hlives & _).
    rewrite sum_stats_sized in Hrun by done.
    rewrite Hlives, Hlive in Hrun. injection Hrun as Hm'.
    rewrite sum_stats_sized, Hsized by done.
    by rewrite <- Hm', Hlives, Hlive, Hm'.
Qed.

Lemma sum_stats_false_idempotent_witness :
  ∃ m', sum_stats true false (kinds_module [10; 20; 30] [5; 7; 9]) = Ok m' ∧
    counts m' = [15; 20; 30] ∧ live m' = Some [0; 7; 9] ∧
    sum_stats true false m' = Ok m'.
Proof.
  destruct (sum_stats_false_idempotent true
              (kinds_module [10; 20; 30] [5; 7; 9]))
    as (m' & Hrun & Hagain); [solve_wf | reflexivity |].
  exists m'. split; [exact Hrun|].
  assert (Ok m' = sum_stats true false
                    (kinds_module [10; 20; 30] [5; 7; 9])) as Hm'
    by (symmetry; exact Hrun).
  vm_compute in Hm'. injection Hm' as ->.
  split; [reflexivity|]. split; [reflexivity | exact Hagain].
Defined.


(** ** Showing statistics *)

(** X20: nothing is shown for a new module, nor, after [sum_stats], for a
    module without descriptors; for a module with descriptors [show_stats]
    hands the formatter one recorded total for every descriptor and
    [show_interval_stats] the live counters. *)
Theorem show_stats_when_counted (debug acc : bool) (m : module)
    (peg_idxs : list Z) :
  wf m →
  (num_counts m = -1 →
     show_stats m = None ∧ show_interval_stats m peg_idxs = None) ∧
  ∃ m', sum_stats debug acc m = Ok m' ∧
    (peg_total m = O →
       show_stats m' = None ∧ show_interval_stats m' peg_idxs = None) ∧
    (peg_total m ≠ O →
       show_stats m'
         = Some (counts m', pegs m, Z.of_nat (peg_total m), m_name m) ∧
       length (counts m') = peg_total m ∧
       show_interval_stats m' peg_idxs
         = Some (live m', pegs m, peg_idxs, m_name m)).
Proof.
  intros Hwf. split.
  { intros Hnew. unfold show_stats, show_interval_stats. by rewrite Hnew. }
  destruct (sum_stats_ok debug acc m Hwf)
    as (m' & Hrun & Hwf' & Hpegs' & _ & Hn' & _).
  exists m'. split; [done|].
  unfold show_stats, show_interval_stats. rewrite Hn', Hpegs'.
  assert (m_name m' = m_name m) as ->.
  { clear -Hrun Hwf.
    destruct (live m) as [p|] eqn:Hlive.
    - destruct (wf_live m Hwf p Hlive) as [[infos Hpegs] Hp].
      pose proof (sized_frame m Hwf) as Hframe.
      destruct (global m) eqn:Hglobal.
      + destruct (sized_spec m Hwf) as (_ & Hn & Hc & Hpegs' & Hlive' & Hg').
        rewrite sum_stats_sized in Hrun by done.
        rewrite Hlive', Hlive, Hpegs', Hpegs, Hg', Hglobal, Hn, Nat2Z.id
          in Hrun.
        rewrite bool_decide_eq_true_2 in Hrun by eauto. simpl in Hrun.
        destruct (sum_global_loop (sized m) p (peg_total m))
          as (c' & Hrun2 & _); [congruence | lia..|].
        rewrite Hrun2 in Hrun. injection Hrun as <-.
        simpl. by rewrite Hframe.
      + destruct (sum_stats_kinds debug acc m infos p)
          as (c' & p' & Hrun2 & _); [done..|].
        rewrite Hrun2 in Hrun. injection Hrun as <-.
        simpl. by rewrite Hframe.
    - destruct (sized_spec m Hwf) as (_ & _ & _ & _ & Hlive' & _).
      rewrite sum_stats_sized in Hrun by done.
      rewrite Hlive', Hlive in Hrun. injection Hrun as <-.
      by rewrite (sized_frame m Hwf). }
  split.
  - intros ->. done.
  - intros Hpos.
    assert ((0 <? Z.of_nat (peg_total m)) = true) as -> by lia.
    split; [done|]. split; [|done].
    destruct (wf_counts m' Hwf') as [[Hn _]|[_ Hlen]]; [lia|].
    by rewrite Hlen, (peg_total_static m m').
Qed.

Lemma show_stats_when_counted_witness :
  let m := Module_new "kinds" None
             {| get_pegs := Some kinds_pegs; get_counts := Some [5; 7; 9];
                global_stats := false |} in
  show_stats m = None ∧
  ∃ m', sum_stats true false m = Ok m' ∧
    show_stats m' = Some ([5; 0; 9], Some kinds_pegs, 3, "kinds").
Proof.
  intros m.
  destruct (show_stats_when_counted true false m [] ) as [Hnew Hsum];
    [solve_wf|].
  split; [by apply Hnew|].
  destruct Hsum as (m' & Hrun & _ & Hshow).
  exists m'. split; [exact Hrun|].
  destruct Hshow as (Hshow & _ & _); [vm_compute; discriminate|].
  rewrite Hshow.
  assert (Ok m' = sum_stats true false m) as Hm' by (symmetry; exact Hrun).
  vm_compute in Hm'. injection Hm' as ->. reflexivity.
Defined.
